(** * BehaviorRunner: a pausable, single-step controller for page behaviors

    A shallow embedding of [BehaviorRunner] and [initRunnableBehavior]
    together with the part of the JavaScript run time they rely on:
    promises with identity, the microtask queue, [setInterval] timers and
    the [window] object that carries the pause flag.  One world holds one
    runner and its environment; the environment acts through events. *)

From Stdlib Require Import ZArith.
From stdpp Require Import base option list gmap strings.

Open Scope Z_scope.
Open Scope nat_scope.

(** ** JavaScript values *)

(** The values that flow through the runner: primitives, the raw
    [{done, value}] object an async iterator produces and the
    [{done, wait}] object a post-step function produces. *)
Inductive value : Type :=
| VUndefined
| VNull
| VBool (b : bool)
| VNum (n : Z)
| VStr (s : string)
| VResult (done : bool) (payload : value)
| VOutcome (done wait : bool).

(** ToBoolean, as used by [if (window.$WBBehaviorPaused)]. *)
Definition truthy (v : value) : bool :=
  match v with
  | VUndefined | VNull => false
  | VBool b => b
  | VNum n => negb (n =? 0)%Z
  | VStr s => negb (String.eqb s "")
  | VResult _ _ | VOutcome _ _ => true
  end.

(** A call either returns or throws. *)
Inductive completion (A : Type) : Type :=
| Normal (a : A)
| Throw (e : value).
Arguments Normal {A} a.
Arguments Throw {A} e.

(** A post-step function: called with the raw result, returns or throws. *)
Definition policy : Type := value → completion value.

(** What may sit in a [postStepFN] position: nothing, [null] or a function. *)
Inductive slot : Type :=
| SUndefined
| SNull
| SFn (f : policy).

(** [x != null] *)
Definition not_nullish (s : slot) : bool :=
  match s with SFn _ => true | SUndefined | SNull => false end.

(** [if (x)] on a slot: functions are truthy, [undefined] and [null] are not. *)
Definition slot_truthy (s : slot) : bool :=
  match s with SFn _ => true | SUndefined | SNull => false end.

(** ** Promises, reactions and jobs *)

Inductive settled : Type :=
| Fulfilled (v : value)
| Rejected (e : value).

(** The callbacks this program attaches to promises. *)
Inductive reaction : Type :=
| RThen (f : policy) (derived : nat)
    (* resultP.then(this.postStepFN): [derived] is the promise [then] returns *)
| RForward (target : nat)
    (* the resolving functions of [target], attached when it adopts a promise *)
| RAwaitStep (outer : nat).
    (* the rest of [step] after [await this.waitToBeUnpaused()];
       [outer] is the promise that call of [step] returned *)

Inductive pstate : Type :=
| Pending (reactions : list reaction)
| Settled (s : settled).

Inductive job : Type :=
| JReact (r : reaction) (s : settled)    (* PromiseReactionJob *)
| JAdopt (target : nat) (source : nat).  (* NewPromiseResolveThenableJob *)

(** ** The action source *)

(** One call of [next()] on a source: it throws, or returns a promise that
    fulfils with [{done, value}] or rejects.  The promise is created in the
    state it ends in. *)
Inductive response : Type :=
| Yields (done : bool) (payload : value)
| Rejects (e : value)
| Throws (e : value).

(** ** The runner and the window *)

Record BehaviorRunner : Type := {
  stepIterator : nat;             (* reference to the async iterator *)
  upCheckInterval : option nat;   (* ?number *)
  postStepFN : slot;
  _waitP : option nat             (* ?Promise<void> *)
}.

Record MousePosition : Type := {
  pageX : Z; pageY : Z; clientX : Z; clientY : Z; screenX : Z; screenY : Z
}.

Record MouseEventConfig : Type := {
  type : string;
  position : MousePosition
}.

(** Function values stored on the window. *)
Inductive handler : Type :=
| BoundStep (self : BehaviorRunner).   (* runner.step, bound by autobind *)

(** The properties of [window] the program touches.  [dispatched] logs the
    calls of [document.dispatchEvent(createMouseEvent(config))] by the
    configuration given: [createMouseEvent] (./events) is not part of the
    sources at hand. *)
Record Window : Type := {
  WBBehaviorPaused : value;                  (* $WBBehaviorPaused *)
  WBBehaviorStepIter : option nat;           (* $WBBehaviorStepIter$ *)
  WBBehaviorRunner : option BehaviorRunner;  (* $WBBehaviorRunner$ *)
  WRIteratorHandler : option handler;        (* $WRIteratorHandler$ *)
  dispatched : list MouseEventConfig
}.

(** ** The world *)

Record World : Type := {
  window : Window;
  runner : BehaviorRunner;
  promises : gmap nat pstate;       (* the promises created so far *)
  next_promise : nat;
  microtasks : list job;            (* the microtask queue, head first *)
  intervals : list (nat * nat);     (* live intervals: handle, and the promise
                                       whose [resolve] the callback holds *)
  next_handle : nat;
  sources : nat → nat → response;   (* what the n-th [next()] of a source does *)
  calls : list nat;                 (* the sources [next()] was called on *)
  waits : list nat                  (* the promises made by waitToBeUnpaused *)
}.

Definition with_window (x : Window) (w : World) : World :=
  {| window := x; runner := runner w; promises := promises w;
     next_promise := next_promise w; microtasks := microtasks w;
     intervals := intervals w; next_handle := next_handle w;
     sources := sources w; calls := calls w; waits := waits w |}.

Definition with_runner (x : BehaviorRunner) (w : World) : World :=
  {| window := window w; runner := x; promises := promises w;
     next_promise := next_promise w; microtasks := microtasks w;
     intervals := intervals w; next_handle := next_handle w;
     sources := sources w; calls := calls w; waits := waits w |}.

Definition with_promises (x : gmap nat pstate) (w : World) : World :=
  {| window := window w; runner := runner w; promises := x;
     next_promise := next_promise w; microtasks := microtasks w;
     intervals := intervals w; next_handle := next_handle w;
     sources := sources w; calls := calls w; waits := waits w |}.

Definition with_next_promise (x : nat) (w : World) : World :=
  {| window := window w; runner := runner w; promises := promises w;
     next_promise := x; microtasks := microtasks w;
     intervals := intervals w; next_handle := next_handle w;
     sources := sources w; calls := calls w; waits := waits w |}.

Definition with_microtasks (x : list job) (w : World) : World :=
  {| window := window w; runner := runner w; promises := promises w;
     next_promise := next_promise w; microtasks := x;
     intervals := intervals w; next_handle := next_handle w;
     sources := sources w; calls := calls w; waits := waits w |}.

Definition with_intervals (x : list (nat * nat)) (w : World) : World :=
  {| window := window w; runner := runner w; promises := promises w;
     next_promise := next_promise w; microtasks := microtasks w;
     intervals := x; next_handle := next_handle w;
     sources := sources w; calls := calls w; waits := waits w |}.

Definition with_next_handle (x : nat) (w : World) : World :=
  {| window := window w; runner := runner w; promises := promises w;
     next_promise := next_promise w; microtasks := microtasks w;
     intervals := intervals w; next_handle := x;
     sources := sources w; calls := calls w; waits := waits w |}.

Definition with_calls (x : list nat) (w : World) : World :=
  {| window := window w; runner := runner w; promises := promises w;
     next_promise := next_promise w; microtasks := microtasks w;
     intervals := intervals w; next_handle := next_handle w;
     sources := sources w; calls := x; waits := waits w |}.

Definition with_waits (x : list nat) (w : World) : World :=
  {| window := window w; runner := runner w; promises := promises w;
     next_promise := next_promise w; microtasks := microtasks w;
     intervals := intervals w; next_handle := next_handle w;
     sources := sources w; calls := calls w; waits := x |}.

Definition set_paused (v : value) (win : Window) : Window :=
  {| WBBehaviorPaused := v; WBBehaviorStepIter := WBBehaviorStepIter win;
     WBBehaviorRunner := WBBehaviorRunner win;
     WRIteratorHandler := WRIteratorHandler win;
     dispatched := dispatched win |}.

(** ** Run-time operations *)

(** A new promise object in the given state. *)
Definition new_promise (st : pstate) (w : World) : nat * World :=
  let p := next_promise w in
  (p, with_next_promise (S p) (with_promises (<[p := st]> (promises w)) w)).

(** Settling a pending promise queues one job per reaction, in order; the
    resolving functions of a settled promise do nothing. *)
Definition settle (p : nat) (s : settled) (w : World) : World :=
  match promises w !! p with
  | Some (Pending rs) =>
      with_microtasks (microtasks w ++ map (λ r, JReact r s) rs)
        (with_promises (<[p := Settled s]> (promises w)) w)
  | _ => w
  end.

(** PerformPromiseThen: register the reaction, or queue its job when the
    promise has settled already. *)
Definition perform_then (p : nat) (r : reaction) (w : World) : World :=
  match promises w !! p with
  | Some (Pending rs) => with_promises (<[p := Pending (rs ++ [r])]> (promises w)) w
  | Some (Settled s) => with_microtasks (microtasks w ++ [JReact r s]) w
  | None => w
  end.

(** Resolving a promise with another promise: the adoption is a job. *)
Definition resolve_with_promise (target source : nat) (w : World) : World :=
  with_microtasks (microtasks w ++ [JAdopt target source]) w.

(** [setInterval(callback, 2000)] where the callback holds [resolve] of [p]. *)
Definition setInterval (p : nat) (w : World) : nat * World :=
  let h := next_handle w in
  (h, with_next_handle (S h) (with_intervals (intervals w ++ [(h, p)]) w)).

Definition clearInterval (h : option nat) (w : World) : World :=
  match h with
  | Some h => with_intervals (filter (λ hp, hp.1 ≠ h) (intervals w)) w
  | None => w
  end.

(** [it.next()]: the n-th call on a source does what its script says at n. *)
Definition iterator_next (it : nat) (w : World) : completion nat * World :=
  let n := count_occ Nat.eq_dec (calls w) it in
  let w1 := with_calls (calls w ++ [it]) w in
  match sources w it n with
  | Throws e => (Throw e, w1)
  | Yields d v =>
      let '(p, w2) := new_promise (Settled (Fulfilled (VResult d v))) w1 in
      (Normal p, w2)
  | Rejects e =>
      let '(p, w2) := new_promise (Settled (Rejected e)) w1 in
      (Normal p, w2)
  end.

(** ** BehaviorRunner *)

Definition set_stepIterator (x : nat) (r : BehaviorRunner) : BehaviorRunner :=
  {| stepIterator := x; upCheckInterval := upCheckInterval r;
     postStepFN := postStepFN r; _waitP := _waitP r |}.

Definition set_upCheckInterval (x : option nat) (r : BehaviorRunner) : BehaviorRunner :=
  {| stepIterator := stepIterator r; upCheckInterval := x;
     postStepFN := postStepFN r; _waitP := _waitP r |}.

Definition set_postStepFN (x : slot) (r : BehaviorRunner) : BehaviorRunner :=
  {| stepIterator := stepIterator r; upCheckInterval := upCheckInterval r;
     postStepFN := x; _waitP := _waitP r |}.

Definition set_waitP (x : option nat) (r : BehaviorRunner) : BehaviorRunner :=
  {| stepIterator := stepIterator r; upCheckInterval := upCheckInterval r;
     postStepFN := postStepFN r; _waitP := x |}.

(** Modelled from the spec: [autobind] (./general) is missing from the
    sources at hand.  The spec calls it "self-binding of methods for
    callback use": it rebinds the methods of the instance to the instance
    and touches no data field.  Methods are functions over the record here,
    so on the record it is the identity. *)
Definition autobind (this : BehaviorRunner) : BehaviorRunner := this.

Section Imports.

(** [doneOrWait], imported from ./postStepFNs. *)
Variable doneOrWait : policy.

Definition constructor (behaviorStepIterator : nat) (postStepFN : slot)
  : BehaviorRunner :=
  autobind
    {| stepIterator := behaviorStepIterator;
       upCheckInterval := None;
       postStepFN := if not_nullish postStepFN then postStepFN
                     else SFn doneOrWait;
       _waitP := None |}.

Definition initRunnableBehavior (win : Window) (behaviorStepIterator : nat)
    (postStepFN : slot) : BehaviorRunner * Window :=
  let runner := constructor behaviorStepIterator postStepFN in
  (runner,
   {| WBBehaviorPaused := WBBehaviorPaused win;
      WBBehaviorStepIter := Some behaviorStepIterator;
      WBBehaviorRunner := Some runner;
      WRIteratorHandler := Some (BoundStep runner);
      dispatched := dispatched win ++
        [ {| type := "mousemove";
             position := {| pageX := 15; pageY := 15;
                            clientX := 150; clientY := 150;
                            screenX := 500; screenY := 250 |} |} ] |}).

End Imports.

Definition isPaused (w : World) : value := WBBehaviorPaused (window w).

Definition swapBehaviorIterator (newBehaviorIterator : nat)
    (newPostStepFN : slot) (w : World) : World :=
  let w1 := with_runner (set_stepIterator newBehaviorIterator (runner w)) w in
  if slot_truthy newPostStepFN
  then with_runner (set_postStepFN newPostStepFN (runner w1)) w1
  else w1.

Definition swapPostStepFn (newPostStepFN : slot) (w : World) : World :=
  with_runner (set_postStepFN newPostStepFN (runner w)) w.

(** The callback given to [setInterval]; [p] is the promise whose [resolve]
    it closes over. *)
Definition interval_callback (p : nat) (w : World) : World :=
  if truthy (WBBehaviorPaused (window w)) then w
  else
    let w1 := clearInterval (upCheckInterval (runner w)) w in
    let w2 := with_runner (set_waitP None (runner w1)) w1 in
    settle p (Fulfilled VUndefined) w2.

Definition waitToBeUnpaused (w : World) : nat * World :=
  match _waitP (runner w) with
  | Some p => (p, w)
  | None =>
      (* new Promise(executor): the executor runs at once *)
      let '(p, w1) := new_promise (Pending []) w in
      let '(h, w2) := setInterval p w1 in
      let w3 := with_runner (set_upCheckInterval (Some h) (runner w2)) w2 in
      let w4 := with_runner (set_waitP (Some p) (runner w3)) w3 in
      (p, with_waits (waits w4 ++ [p]) w4)
  end.

Definition performStep (w : World) : completion nat * World :=
  let '(c, w1) := iterator_next (stepIterator (runner w)) w in
  match c with
  | Throw e => (Throw e, w1)
  | Normal resultP =>
      match postStepFN (runner w1) with
      | SFn f =>
          let '(derived, w2) := new_promise (Pending []) w1 in
          (Normal derived, perform_then resultP (RThen f derived) w2)
      | SUndefined | SNull => (Normal resultP, w1)
      end
  end.

(** How an async function finishes: a thrown error rejects the promise the
    call returned, a returned promise is adopted by it. *)
Definition async_return (outer : nat) (c : completion nat) (w : World) : World :=
  match c with
  | Throw e => settle outer (Rejected e) w
  | Normal p => resolve_with_promise outer p w
  end.

(** [return this.performStep()] inside [step]. *)
Definition step_return (outer : nat) (w : World) : World :=
  let '(c, w1) := performStep w in async_return outer c w1.

(** [step] is an async function: every call makes the promise it returns. *)
Definition step (w : World) : nat * World :=
  let '(outer, w1) := new_promise (Pending []) w in
  match _waitP (runner w1) with
  | Some wp => (outer, resolve_with_promise outer wp w1)
  | None =>
      if truthy (WBBehaviorPaused (window w1)) then
        let '(wp, w2) := waitToBeUnpaused w1 in
        (outer, perform_then wp (RAwaitStep outer) w2)
      else (outer, step_return outer w1)
  end.

Definition pause (w : World) : World :=
  with_window (set_paused (VBool true) (window w)) w.

Definition unpause (w : World) : World :=
  with_window (set_paused (VBool false) (window w)) w.

(** [[Symbol.asyncIterator]().next]. *)
Definition asyncIterator_next (w : World) : nat * World := step w.

(** ** The event loop *)

Definition run_job (j : job) (w : World) : World :=
  match j with
  | JAdopt target source => perform_then source (RForward target) w
  | JReact (RForward target) s => settle target s w
  | JReact (RThen f derived) (Fulfilled v) =>
      match f v with
      | Normal v' => settle derived (Fulfilled v') w
      | Throw e => settle derived (Rejected e) w
      end
  | JReact (RThen _ derived) (Rejected e) => settle derived (Rejected e) w
  | JReact (RAwaitStep outer) (Fulfilled _) => step_return outer w
  | JReact (RAwaitStep outer) (Rejected e) => settle outer (Rejected e) w
  end.

(** Run the job at the head of the microtask queue. *)
Definition microtask (w : World) : World :=
  match microtasks w with
  | [] => w
  | j :: q => run_job j (with_microtasks q w)
  end.

(** Run microtasks until the queue is empty, at most [fuel] of them. *)
Fixpoint drain (fuel : nat) (w : World) : World :=
  match fuel with
  | 0 => w
  | S fuel' =>
      match microtasks w with
      | [] => w
      | _ :: _ => drain fuel' (microtask w)
      end
  end.

(** The promise held by the callback of the live interval [h], if any. *)
Definition handle_promise (h : nat) (w : World) : option nat :=
  match list_find (λ hp, hp.1 = h) (intervals w) with
  | Some (_, (_, p)) => Some p
  | None => None
  end.

(** The interval with handle [h] fires, if it is live. *)
Definition tick (h : nat) (w : World) : World :=
  match handle_promise h w with
  | Some p => interval_callback p w
  | None => w
  end.

(** What can happen to a runner, one thing at a time: its methods are
    called, the environment writes the pause flag, an interval fires, a
    microtask runs. *)
Inductive event : Type :=
| EStep
| EWaitToBeUnpaused
| EPause
| EUnpause
| ESetPaused (v : value)
| ESwapBehaviorIterator (it : nat) (post : slot)
| ESwapPostStepFn (post : slot)
| ETick (h : nat)
| EMicrotask.

Definition exec (ev : event) (w : World) : World :=
  match ev with
  | EStep => (step w).2
  | EWaitToBeUnpaused => (waitToBeUnpaused w).2
  | EPause => pause w
  | EUnpause => unpause w
  | ESetPaused v => with_window (set_paused v (window w)) w
  | ESwapBehaviorIterator it post => swapBehaviorIterator it post w
  | ESwapPostStepFn post => swapPostStepFn post w
  | ETick h => tick h w
  | EMicrotask => microtask w
  end.

Fixpoint run (evs : list event) (w : World) : World :=
  match evs with
  | [] => w
  | ev :: evs' => run evs' (exec ev w)
  end.

(** A world in which nothing has run yet. *)
Definition fresh_world (win : Window) (r : BehaviorRunner)
    (srcs : nat → nat → response) : World :=
  {| window := win; runner := r; promises := ∅; next_promise := 0;
     microtasks := []; intervals := []; next_handle := 1;
     sources := srcs; calls := []; waits := [] |}.

Definition blank_window : Window :=
  {| WBBehaviorPaused := VUndefined; WBBehaviorStepIter := None;
     WBBehaviorRunner := None; WRIteratorHandler := None; dispatched := [] |}.

(** Modelled from the spec: [doneOrWait] (./postStepFNs) is missing from the
    sources at hand.  The spec gives the default policy as
    "classifies a StepResult as {done, wait: !done && value ===
    special-wait-sentinel}"; [is_sentinel] decides the comparison with the
    sentinel, which the spec leaves to the policy.  The spec defines the
    policy on StepResults only; on anything else the model lets it throw. *)
Definition doneOrWait_spec (is_sentinel : value → bool) : policy :=
  λ result,
    match result with
    | VResult done v => Normal (VOutcome done (negb done && is_sentinel v))
    | _ => Throw (VStr "TypeError")
    end.

(** ** Vocabulary of the properties *)

(** The promise a reaction settles or resumes. *)
Definition reaction_target (r : reaction) : nat :=
  match r with
  | RThen _ derived => derived
  | RForward target => target
  | RAwaitStep outer => outer
  end.

Definition job_target (j : job) : nat :=
  match j with
  | JReact r _ => reaction_target r
  | JAdopt target _ => target
  end.

(** Reactions and jobs that resume a suspended [step]. *)
Definition is_resume (r : reaction) : bool :=
  match r with RAwaitStep _ => true | RThen _ _ | RForward _ => false end.

Definition job_resumes (j : job) : bool :=
  match j with JReact r _ => is_resume r | JAdopt _ _ => false end.

Definition is_pending (w : World) (p : nat) : Prop :=
  ∃ rs, promises w !! p = Some (Pending rs).

(** A PendingWait: a promise made by [waitToBeUnpaused] that has not
    resolved yet. *)
Definition outstanding_wait (w : World) (p : nat) : Prop :=
  p ∈ waits w ∧ is_pending w p.

(** A promise that can still be settled by the program: nobody but the
    interval callback settles a wait promise. *)
Definition settable (w : World) (p : nat) : Prop :=
  p < next_promise w ∧ p ∉ waits w.

(** The invariant of the runner and its environment. *)
Record wf (w : World) : Prop := {
  wf_promises : ∀ p st, promises w !! p = Some st → p < next_promise w;
  wf_waits : ∀ p, p ∈ waits w → p < next_promise w;
  wf_jobs : Forall (λ j, settable w (job_target j)) (microtasks w);
  wf_reactions : ∀ p rs, promises w !! p = Some (Pending rs) →
                 Forall (λ r, settable w (reaction_target r)) rs;
  wf_resume : ∀ p rs, promises w !! p = Some (Pending rs) →
              _waitP (runner w) ≠ Some p →
              Forall (λ r, is_resume r = false) rs;
  wf_slot : match _waitP (runner w) with
            | Some p => outstanding_wait w p ∧
                        ∃ h, intervals w = [(h, p)] ∧
                             upCheckInterval (runner w) = Some h
            | None => intervals w = []
            end;
  wf_idle : ∀ p, p ∈ waits w → _waitP (runner w) ≠ Some p →
            ∃ s, promises w !! p = Some (Settled s)
}.

(** The poll sees the flag falsy: a live interval fires while
    [window.$WBBehaviorPaused] is falsy. *)
Definition observes_unpaused (ev : event) (w : World) : bool :=
  match ev with
  | ETick h => bool_decide (is_Some (handle_promise h w))
               && negb (truthy (WBBehaviorPaused (window w)))
  | _ => false
  end.

(** Some event of the run is such an observation. *)
Fixpoint poll_saw_unpaused (evs : list event) (w : World) : bool :=
  match evs with
  | [] => false
  | ev :: evs' => observes_unpaused ev w || poll_saw_unpaused evs' (exec ev w)
  end.

(** The flag is truthy after every event of the run. *)
Fixpoint stays_paused (evs : list event) (w : World) : bool :=
  match evs with
  | [] => true
  | ev :: evs' => truthy (WBBehaviorPaused (window (exec ev w)))
                  && stays_paused evs' (exec ev w)
  end.

Definition swaps_source (ev : event) : bool :=
  match ev with ESwapBehaviorIterator _ _ => true | _ => false end.

(** What the next [next()] of the installed source will do. *)
Definition next_response (w : World) : response :=
  sources w (stepIterator (runner w))
    (count_occ Nat.eq_dec (calls w) (stepIterator (runner w))).

(** The next advance fails with [e]: the source throws, its promise rejects,
    or the installed post-step function throws on what it yields. *)
Definition next_step_fails (w : World) (e : value) : Prop :=
  match next_response w with
  | Throws e' => e' = e
  | Rejects e' => e' = e
  | Yields d v => ∃ f, postStepFN (runner w) = SFn f ∧ f (VResult d v) = Throw e
  end.

(** The source of the scenarios: "a", then "b", then exhausted. *)
Definition abc_source (it n : nat) : response :=
  match n with
  | 0 => Yields false (VStr "a")
  | 1 => Yields false (VStr "b")
  | _ => Yields true VUndefined
  end.

Definition no_resume (q : list job) : Prop :=
  Forall (λ j, job_resumes j = false) q.

(** What an unpaused [step()] resolves with when the source yields. *)
Definition step_outcome (post : slot) (d : bool) (v : value) : settled :=
  match post with
  | SFn f =>
      match f (VResult d v) with
      | Normal v' => Fulfilled v'
      | Throw e => Rejected e
      end
  | SUndefined | SNull => Fulfilled (VResult d v)
  end.

(** From [w] to [w'] the source is kept and is advanced at most once. *)
Definition advance_of (w w' : World) : Prop :=
  stepIterator (runner w') = stepIterator (runner w) ∧
  (calls w' = calls w ∨ calls w' = calls w ++ [stepIterator (runner w)]).

(** What a step ends with, given what the [next()] call it makes does. *)
Definition response_outcome (post : slot) (r : response) : settled :=
  match r with
  | Yields d v => step_outcome post d v
  | Rejects e => Rejected e
  | Throws e => Rejected e
  end.

(** A driver that asks the runner's async iterator for the next result and
    awaits the promise before it goes on, as a [for await] loop over the
    runner does: while nothing is paused the
    promise has settled once three microtasks have run.  The state of the
    promise at that point is what the driver sees. *)
Definition await_step (w : World) : option pstate * World :=
  let '(p, w1) := asyncIterator_next w in
  let w2 := drain 3 w1 in
  (promises w2 !! p, w2).

Fixpoint step_sequence (k : nat) (w : World) : list (option pstate) * World :=
  match k with
  | 0 => ([], w)
  | S k' =>
      let '(r, w1) := await_step w in
      let '(rs, w2) := step_sequence k' w1 in
      (r :: rs, w2)
  end.

(** Events that assign [postStepFN]: [swapPostStepFn] always does,
    [swapBehaviorIterator] when its second argument is truthy. *)
Definition replaces_policy (ev : event) : bool :=
  match ev with
  | ESwapPostStepFn _ => true
  | ESwapBehaviorIterator _ post => slot_truthy post
  | _ => false
  end.

(** The post-step function in force after [swapBehaviorIterator]. *)
Definition policy_after_swap (newPostStepFN old : slot) : slot :=
  if slot_truthy newPostStepFN then newPostStepFN else old.

(** Events that write the pause flag. *)
Definition writes_flag (ev : event) : bool :=
  match ev with
  | EPause | EUnpause | ESetPaused _ => true
  | _ => false
  end.

(** ** Worlds for the examples *)

(** A source whose [next()] throws. *)
Definition throwing_source (it n : nat) : response := Throws (VStr "boom").

(** The default policy with a sentinel nothing is equal to. *)
Definition plain_policy : policy := doneOrWait_spec (λ _, false).

(** A runner on source 7 with the default policy, nothing run yet. *)
Definition demo_world : World :=
  fresh_world blank_window (constructor plain_policy 7 SUndefined) abc_source.

(** The same runner on a source that throws. *)
Definition broken_world : World :=
  fresh_world blank_window (constructor plain_policy 7 SUndefined)
    throwing_source.

(** [pause()], then a first [step()] that is left waiting. *)
Definition waiting_world : World := run [EPause; EStep] demo_world.

(** ** Tactics: running the operations on a world given field by field *)

Ltac heap_rw :=
  first
    [ rewrite lookup_insert_eq
    | rewrite lookup_insert_ne by lia
    | rewrite decide_True by done
    | rewrite decide_False by (cbn [fst snd]; intros ?; lia) ].

Ltac eval_world := repeat first [progress cbn | heap_rw].

Ltac eval_world_with H := repeat first [progress cbn | heap_rw | rewrite H].


(** * The invariant holds in every reachable world *)

Lemma wf_new_promise st w :
  wf w → (∀ rs, st = Pending rs → rs = []) → wf (new_promise st w).2.
Proof.
  intros [Hp Hw Hj Hr Hres Hs Hi] Hst.
  destruct w as [win r heap np q ivs nh srcs cs ws]; simpl in *.
  split; simpl.
  - intros p st'. rewrite lookup_insert. case_decide; [lia|]. intros H'. apply Hp in H'. lia.
  - intros p Hin. apply Hw in Hin. lia.
  - eapply Forall_impl; [exact Hj|]. intros j [? ?]. split; simpl in *; [lia|done].
  - intros p rs. rewrite lookup_insert. case_decide.
    + intros [= ->]. rewrite (Hst rs eq_refl). constructor.
    + intros H'. eapply Forall_impl; [exact (Hr _ _ H')|]. intros j [? ?]. split; simpl in *; [lia|done].
  - intros p rs. rewrite lookup_insert. case_decide.
    + intros [= ->]. rewrite (Hst rs eq_refl). constructor.
    + intros H'. apply (Hres _ _ H').
  - destruct (_waitP r) as [p|]; [|done].
    destruct Hs as [[Hin [rs Hrs]] Hh]. split; [|done].
    split; [done|]. exists rs. simpl in *.
    rewrite lookup_insert_ne; [done|]. apply Hp in Hrs. lia.
  - intros p Hin Hne. destruct (Hi p Hin Hne) as [s Hs']. exists s.
    rewrite lookup_insert_ne; [done|]. apply Hp in Hs'. lia.
Qed.

Lemma wf_new_pending w : wf w → wf (new_promise (Pending []) w).2.
Proof. intros Hwf. apply wf_new_promise; [done|]. by intros rs [= <-]. Qed.

Lemma wf_new_settled s w : wf w → wf (new_promise (Settled s) w).2.
Proof. intros Hwf. by apply wf_new_promise. Qed.

Lemma settable_settle p s w t : settable w t → settable (settle p s w) t.
Proof. unfold settable, settle. by repeat case_match. Qed.

Lemma wf_settle p s w : wf w → settable w p → wf (settle p s w).
Proof.
  intros [Hp Hw Hj Hr Hres Hs Hi] [Hlt Hnw]. unfold settle.
  destruct (promises w !! p) as [[rs|s']|] eqn:Hl; try by split.
  destruct w as [win r heap np q ivs nh srcs cs ws]; simpl in *.
  split; simpl.
  - intros p' st'. rewrite lookup_insert. case_decide; [lia|]. apply Hp.
  - done.
  - rewrite Forall_app. split; [done|]. rewrite Forall_map.
    eapply Forall_impl; [exact (Hr _ _ Hl)|]. by intros ? [? ?].
  - intros p' rs'. rewrite lookup_insert. case_decide; [done|]. apply Hr.
  - intros p' rs'. rewrite lookup_insert. case_decide; [done|]. apply Hres.
  - destruct (_waitP r) as [p'|]; [|done].
    destruct Hs as [[Hin [rs' Hrs]] Hh]. split; [|done].
    split; [done|]. exists rs'. simpl.
    rewrite lookup_insert_ne; [done|]. intros ->. done.
  - intros p' Hin Hne. destruct (Hi p' Hin Hne) as [s' Hs']. exists s'.
    rewrite lookup_insert_ne; [done|]. intros ->. done.
Qed.

Lemma wf_perform_then p r w :
  wf w → settable w (reaction_target r) →
  (is_resume r = true → _waitP (runner w) = Some p) →
  wf (perform_then p r w).
Proof.
  intros [Hp Hw Hj Hr Hres Hs Hi] Hset Hrole. unfold perform_then.
  destruct (promises w !! p) as [[rs|s']|] eqn:Hl; try by split.
  - destruct w as [win rn heap np q ivs nh srcs cs ws]; simpl in *.
    split; simpl.
    + intros p' st'. rewrite lookup_insert. case_decide; [|apply Hp].
      intros _. subst. by apply Hp in Hl.
    + done.
    + done.
    + intros p' rs'. rewrite lookup_insert. case_decide; [|apply Hr].
      intros [= <-]. subst. rewrite Forall_app. split; [by eapply Hr|].
      by constructor.
    + intros p' rs'. rewrite lookup_insert. case_decide; [|apply Hres].
      intros [= <-] Hne. subst. rewrite Forall_app. split; [by eapply Hres|].
      constructor; [|done]. destruct (is_resume r) eqn:E; [|done].
      by rewrite Hrole in Hne.
    + destruct (_waitP rn) as [p'|]; [|done].
      destruct Hs as [[Hin [rs' Hrs]] Hh]. split; [|done].
      split; [done|]. simpl. unfold is_pending; simpl.
      rewrite lookup_insert. case_decide; [eauto|eauto].
    + intros p' Hin Hne. destruct (Hi p' Hin Hne) as [s' Hs']. exists s'.
      rewrite lookup_insert_ne; [done|]. intros ->. congruence.
  - destruct w as [win rn heap np q ivs nh srcs cs ws]; simpl in *.
    split; simpl; try done.
    rewrite Forall_app. split; [done|]. by constructor.
Qed.

Lemma wf_resolve_with_promise t src w :
  wf w → settable w t → wf (resolve_with_promise t src w).
Proof.
  intros [Hp Hw Hj Hr Hres Hs Hi] Hset.
  destruct w as [win rn heap np q ivs nh srcs cs ws]; simpl in *.
  split; simpl; try done.
  rewrite Forall_app. split; [done|]. by constructor.
Qed.

Lemma wf_with_calls cs w : wf w → wf (with_calls cs w).
Proof. intros [Hp Hw Hj Hr Hres Hs Hi]. by split. Qed.

Lemma wf_with_window win w : wf w → wf (with_window win w).
Proof. intros [Hp Hw Hj Hr Hres Hs Hi]. by split. Qed.

Lemma wf_swapBehaviorIterator it post w : wf w → wf (swapBehaviorIterator it post w).
Proof.
  intros [Hp Hw Hj Hr Hres Hs Hi]. unfold swapBehaviorIterator.
  destruct (slot_truthy post); by split.
Qed.

Lemma wf_swapPostStepFn post w : wf w → wf (swapPostStepFn post w).
Proof. intros [Hp Hw Hj Hr Hres Hs Hi]. by split. Qed.

Lemma settable_new_promise st w t :
  settable w t → settable (new_promise st w).2 t.
Proof. intros [? ?]. split; simpl in *; [lia|done]. Qed.

Lemma settable_fresh st w :
  wf w → settable (new_promise st w).2 (new_promise st w).1.
Proof.
  intros Hwf. split; simpl; [lia|]. intros Hin.
  apply (wf_waits _ Hwf) in Hin. lia.
Qed.

Lemma settable_with_calls cs w t : settable (with_calls cs w) t ↔ settable w t.
Proof. done. Qed.

Lemma iterator_next_inv it w :
  wf w →
  wf (iterator_next it w).2 ∧
  (∀ t, settable w t → settable (iterator_next it w).2 t) ∧
  runner (iterator_next it w).2 = runner w.
Proof.
  intros Hwf. unfold iterator_next.
  destruct (sources w it _) as [d v|e|e]; simpl.
  - split; [|split; [|done]].
    + apply (wf_new_promise _ (with_calls _ w)); [by apply wf_with_calls|done].
    + intros t Ht. by apply (settable_new_promise _ (with_calls _ w)).
  - split; [|split; [|done]].
    + apply (wf_new_promise _ (with_calls _ w)); [by apply wf_with_calls|done].
    + intros t Ht. by apply (settable_new_promise _ (with_calls _ w)).
  - split; [by apply wf_with_calls|done].
Qed.

Lemma settable_perform_then p r w t :
  settable (perform_then p r w) t ↔ settable w t.
Proof. unfold perform_then, settable. by repeat case_match. Qed.

Lemma runner_perform_then p r w : runner (perform_then p r w) = runner w.
Proof. unfold perform_then. by repeat case_match. Qed.

Lemma runner_settle p s w : runner (settle p s w) = runner w.
Proof. unfold settle. by repeat case_match. Qed.

Lemma performStep_inv w :
  wf w →
  wf (performStep w).2 ∧
  (∀ t, settable w t → settable (performStep w).2 t) ∧
  runner (performStep w).2 = runner w.
Proof.
  intros Hwf. unfold performStep.
  destruct (iterator_next_inv (stepIterator (runner w)) w Hwf) as (Hwf1 & Hset1 & Hr1).
  destruct (iterator_next _ w) as [[rp|e] w1]; simpl in *; [|done].
  rewrite Hr1.
  destruct (postStepFN (runner w)) as [| |f]; simpl; try done.
  split; [|split].
  - apply wf_perform_then; [by apply wf_new_pending| |done].
    apply (settable_fresh _ w1 Hwf1).
  - intros t Ht. apply settable_perform_then, (settable_new_promise _ w1). auto.
  - by rewrite runner_perform_then.
Qed.

Lemma async_return_inv outer c w :
  wf w → settable w outer →
  wf (async_return outer c w) ∧
  (∀ t, settable w t → settable (async_return outer c w) t) ∧
  runner (async_return outer c w) = runner w.
Proof.
  intros Hwf Hset. destruct c as [p|e]; simpl.
  - split; [by apply wf_resolve_with_promise|done].
  - split; [by apply wf_settle|]. split; [|apply runner_settle].
    intros t. apply settable_settle.
Qed.

Lemma step_return_inv outer w :
  wf w → settable w outer →
  wf (step_return outer w) ∧
  (∀ t, settable w t → settable (step_return outer w) t) ∧
  runner (step_return outer w) = runner w.
Proof.
  intros Hwf Hset. unfold step_return.
  destruct (performStep_inv w Hwf) as (Hwf1 & Hset1 & Hr1).
  destruct (performStep w) as [c w1]; simpl in *.
  destruct (async_return_inv outer c w1 Hwf1 (Hset1 _ Hset)) as (Hwf2 & Hset2 & Hr2).
  split; [done|]. split; [|congruence]. auto.
Qed.

Lemma waitToBeUnpaused_slot w :
  _waitP (runner (waitToBeUnpaused w).2) = Some (waitToBeUnpaused w).1.
Proof. unfold waitToBeUnpaused. by destruct (_waitP (runner w)) eqn:E. Qed.

Lemma waitToBeUnpaused_inv w :
  wf w →
  wf (waitToBeUnpaused w).2 ∧
  (∀ t, settable w t → settable (waitToBeUnpaused w).2 t).
Proof.
  intros Hwf. unfold waitToBeUnpaused.
  destruct (_waitP (runner w)) as [p|] eqn:E; simpl; [done|].
  destruct Hwf as [Hp Hw Hj Hr Hres Hs Hi]. rewrite E in Hs.
  destruct w as [win rn heap np q ivs nh srcs cs ws]; simpl in *. subst ivs.
  assert (Hfresh : heap !! np = None).
  { destruct (heap !! np) eqn:El; [|done]. apply Hp in El. lia. }
  assert (Hmono : ∀ t, t < np ∧ t ∉ ws → t < S np ∧ t ∉ ws ++ [np]).
  { intros t [? ?]. split; [lia|]. intros Hin.
    apply elem_of_app in Hin as [?|Hin]; [done|].
    apply list_elem_of_singleton in Hin. lia. }
  split; [|exact Hmono].
  split; simpl.
  - intros p st'. rewrite lookup_insert. case_decide; [lia|]. intros H'. apply Hp in H'. lia.
  - intros p Hin. apply elem_of_app in Hin as [Hin|Hin].
    + apply Hw in Hin. lia.
    + apply list_elem_of_singleton in Hin. lia.
  - eapply Forall_impl; [exact Hj|]. intros j. apply Hmono.
  - intros p rs. rewrite lookup_insert. case_decide.
    + intros [= <-]. constructor.
    + intros H'. eapply Forall_impl; [exact (Hr _ _ H')|]. intros j. apply Hmono.
  - intros p rs. rewrite lookup_insert. case_decide.
    + intros [= <-]. constructor.
    + intros H' _. apply (Hres _ _ H'). by rewrite E.
  - split.
    + split; [apply elem_of_app; right; by apply list_elem_of_singleton|].
      exists []. simpl. by rewrite lookup_insert_eq.
    + by exists nh.
  - intros p Hin Hne. apply elem_of_app in Hin as [Hin|Hin].
    2:{ apply list_elem_of_singleton in Hin. by subst. }
    destruct (Hi p Hin) as [s Hs']; [by rewrite E|]. exists s.
    rewrite lookup_insert_ne; [done|]. apply Hp in Hs'. lia.
Qed.

Lemma step_inv w : wf w → wf (step w).2.
Proof.
  intros Hwf. unfold step.
  pose proof (wf_new_pending w Hwf) as Hwf1.
  pose proof (settable_fresh (Pending []) w Hwf) as Hout.
  destruct (new_promise (Pending []) w) as [outer w1] eqn:E.
  assert (Hr1 : runner w1 = runner w) by (by injection E as <- <-).
  simpl in *. destruct (_waitP (runner w1)) as [wp|] eqn:Ew; simpl.
  - by apply wf_resolve_with_promise.
  - destruct (truthy _); [|by apply step_return_inv].
    destruct (waitToBeUnpaused_inv w1 Hwf1) as [Hwf2 Hset2].
    pose proof (waitToBeUnpaused_slot w1) as Hslot.
    destruct (waitToBeUnpaused w1) as [wp w2]; simpl in *.
    apply wf_perform_then; auto.
Qed.

Lemma handle_promise_live h p w :
  handle_promise h w = Some p → (h, p) ∈ intervals w.
Proof.
  unfold handle_promise.
  destruct (list_find _ _) as [[i [h' p']]|] eqn:E; [|done].
  intros [= ->]. apply list_find_Some in E as (Hl & Heq & _).
  simpl in Heq. subst. by eapply list_elem_of_lookup_2.
Qed.

Lemma tick_inv h w : wf w → wf (tick h w).
Proof.
  intros Hwf. unfold tick.
  destruct (handle_promise h w) as [p|] eqn:E; [|done].
  apply handle_promise_live in E. unfold interval_callback.
  destruct (truthy _); [done|].
  destruct Hwf as [Hp Hw Hj Hr Hres Hs Hi].
  destruct (_waitP (runner w)) as [p'|] eqn:Ew.
  2:{ rewrite Hs in E. by apply elem_of_nil in E. }
  destruct Hs as [[Hin [rs Hrs]] (h' & Hiv & Hup)].
  rewrite Hiv in E. apply list_elem_of_singleton in E. injection E as -> ->.
  rewrite Hup. unfold settle. simpl. rewrite Hrs.
  destruct w as [win rn heap np q ivs nh srcs cs ws]; simpl in *. subst ivs.
  split; simpl.
  - intros p st'. rewrite lookup_insert. case_decide; [|apply Hp].
    intros _. subst. by apply Hp in Hrs.
  - done.
  - rewrite Forall_app. split; [done|]. rewrite Forall_map.
    eapply Forall_impl; [exact (Hr _ _ Hrs)|]. by intros ? [? ?].
  - intros p rs'. rewrite lookup_insert. case_decide; [done|]. apply Hr.
  - intros p rs'. rewrite lookup_insert. case_decide; [done|].
    intros H' _. apply (Hres _ _ H'). congruence.
  - rewrite filter_cons_False; [done|]. simpl. by intros ?.
  - intros p Hin' _. rewrite lookup_insert. case_decide; [eauto|].
    apply Hi; [done|congruence].
Qed.

Lemma run_job_inv j w :
  wf w → settable w (job_target j) → wf (run_job j w).
Proof.
  intros Hwf Hset. destruct j as [[f d|t|outer] [v|e]|t src]; simpl in *.
  - destruct (f v); by apply wf_settle.
  - by apply wf_settle.
  - by apply wf_settle.
  - by apply wf_settle.
  - by apply step_return_inv.
  - by apply wf_settle.
  - by apply wf_perform_then.
Qed.

Lemma microtask_inv w : wf w → wf (microtask w).
Proof.
  intros Hwf. unfold microtask.
  destruct (microtasks w) as [|j q] eqn:E; [done|].
  pose proof (wf_jobs _ Hwf) as Hj. rewrite E in Hj.
  apply Forall_cons in Hj as [Hj Hq].
  apply run_job_inv; [|done].
  destruct Hwf as [Hp Hw _ Hr Hres Hs Hi]. by split.
Qed.

Lemma exec_inv ev w : wf w → wf (exec ev w).
Proof.
  intros Hwf. destruct ev; simpl.
  - by apply step_inv.
  - by apply waitToBeUnpaused_inv.
  - by apply wf_with_window.
  - by apply wf_with_window.
  - by apply wf_with_window.
  - by apply wf_swapBehaviorIterator.
  - by apply wf_swapPostStepFn.
  - by apply tick_inv.
  - by apply microtask_inv.
Qed.

Lemma run_inv evs w : wf w → wf (run evs w).
Proof.
  revert w. induction evs as [|ev evs IH]; intros w Hwf; simpl; [done|].
  by apply IH, exec_inv.
Qed.

Lemma wf_fresh_world win r srcs : _waitP r = None → wf (fresh_world win r srcs).
Proof.
  intros Hr. split; simpl; try done.
  - intros p Hin. by apply elem_of_nil in Hin.
  - by rewrite Hr.
  - intros p Hin. by apply elem_of_nil in Hin.
Qed.

Lemma drain_inv fuel w : wf w → wf (drain fuel w).
Proof.
  revert w. induction fuel as [|fuel IH]; intros w Hwf; simpl; [done|].
  destruct (microtasks w); [done|]. by apply IH, microtask_inv.
Qed.

(** * At most one pending wait *)

Lemma outstanding_wait_slot w p :
  wf w → outstanding_wait w p ↔ _waitP (runner w) = Some p.
Proof.
  intros Hwf. split.
  - intros [Hin [rs Hrs]].
    destruct (decide (_waitP (runner w) = Some p)) as [|Hne]; [done|].
    destruct (wf_idle _ Hwf p Hin Hne) as [s Hs]. congruence.
  - intros E. pose proof (wf_slot _ Hwf) as Hs. rewrite E in Hs. tauto.
Qed.

Lemma intervals_slot w :
  wf w →
  match _waitP (runner w) with
  | Some p => ∃ h, intervals w = [(h, p)] ∧ upCheckInterval (runner w) = Some h
  | None => intervals w = []
  end.
Proof.
  intros Hwf. pose proof (wf_slot _ Hwf) as Hs.
  destruct (_waitP (runner w)); tauto.
Qed.

Lemma tick_unpaused h p w :
  wf w → handle_promise h w = Some p →
  truthy (WBBehaviorPaused (window w)) = false →
  _waitP (runner w) = Some p ∧
  intervals (tick h w) = [] ∧
  promises (tick h w) !! p = Some (Settled (Fulfilled VUndefined)) ∧
  _waitP (runner (tick h w)) = None.
Proof.
  intros Hwf E Hf. unfold tick. rewrite E.
  apply handle_promise_live in E. unfold interval_callback. rewrite Hf.
  pose proof (wf_slot _ Hwf) as Hs.
  destruct (_waitP (runner w)) as [p'|] eqn:Ew.
  2:{ rewrite Hs in E. by apply elem_of_nil in E. }
  destruct Hs as [[Hin [rs Hrs]] (h' & Hiv & Hup)].
  rewrite Hiv in E. apply list_elem_of_singleton in E. injection E as -> ->.
  rewrite Hup. unfold settle. simpl. rewrite Hrs. simpl.
  rewrite Hiv, lookup_insert_eq. split; [done|]. split; [|done].
  rewrite filter_cons_False; [done|]. simpl. by intros ?.
Qed.

Lemma waitToBeUnpaused_fresh w :
  wf w → _waitP (runner w) = None →
  fst (waitToBeUnpaused w) = next_promise w ∧
  promises w !! fst (waitToBeUnpaused w) = None ∧
  (fst (waitToBeUnpaused w) ∉ waits w) ∧
  intervals (snd (waitToBeUnpaused w)) = [(next_handle w, next_promise w)].
Proof.
  intros Hwf E. unfold waitToBeUnpaused. rewrite E. simpl.
  split; [done|]. split; [|split].
  - destruct (promises w !! next_promise w) eqn:El; [|done].
    apply (wf_promises _ Hwf) in El. lia.
  - intros Hin. apply (wf_waits _ Hwf) in Hin. lia.
  - pose proof (wf_slot _ Hwf) as Hs. rewrite E in Hs. by rewrite Hs.
Qed.

(** C3: in every world reachable from a newly constructed runner, by any
    sequence of calls, flag writes, interval ticks and microtasks, the
    outstanding PendingWait futures are exactly the content of the
    [_waitP] slot, so there is at most one, and at most one polling interval
    is live.  While a wait is in the slot its polling interval exists: it is
    the one live interval, its callback holds that wait and its handle is
    the one in [upCheckInterval]; with the slot empty no interval is live.
    [waitToBeUnpaused()] called while one is outstanding returns that very
    promise and changes nothing.  When the live interval fires and finds
    the flag falsy, the interval is cleared, the promise is fulfilled and
    the slot is emptied, no PendingWait is left, and a later
    [waitToBeUnpaused()] makes a new, different promise. *)
Theorem single_pending_wait (doneOrWait : policy) (win : Window) (it : nat)
    (post : slot) (srcs : nat → nat → response) (evs : list event) :
  let w := run evs (fresh_world win (constructor doneOrWait it post) srcs) in
  (∀ p, outstanding_wait w p ↔ _waitP (runner w) = Some p) ∧
  (∀ p q, outstanding_wait w p → outstanding_wait w q → p = q) ∧
  length (intervals w) ≤ 1 ∧
  match _waitP (runner w) with
  | Some p => ∃ h, intervals w = [(h, p)] ∧
                   upCheckInterval (runner w) = Some h ∧
                   handle_promise h w = Some p
  | None => intervals w = []
  end ∧
  (∀ p, _waitP (runner w) = Some p → waitToBeUnpaused w = (p, w)) ∧
  (∀ p, _waitP (runner w) = Some p →
        ∃ h, handle_promise h w = Some p ∧
             (truthy (WBBehaviorPaused (window w)) = false →
              intervals (tick h w) = [] ∧
              promises (tick h w) !! p
              = Some (Settled (Fulfilled VUndefined)) ∧
              _waitP (runner (tick h w)) = None)) ∧
  (∀ h p, handle_promise h w = Some p →
          truthy (WBBehaviorPaused (window w)) = false →
          let w' := tick h w in
          _waitP (runner w) = Some p ∧
          intervals w' = [] ∧
          promises w' !! p = Some (Settled (Fulfilled VUndefined)) ∧
          _waitP (runner w') = None ∧
          (∀ q, ¬ outstanding_wait w' q) ∧
          fst (waitToBeUnpaused w') ≠ p ∧
          outstanding_wait (snd (waitToBeUnpaused w')) (fst (waitToBeUnpaused w'))).
Proof.
  intros w.
  assert (Hwf : wf w) by (by apply run_inv, wf_fresh_world).
  clearbody w.
  assert (Hlive : match _waitP (runner w) with
                  | Some p => ∃ h, intervals w = [(h, p)] ∧
                                   upCheckInterval (runner w) = Some h ∧
                                   handle_promise h w = Some p
                  | None => intervals w = []
                  end).
  { pose proof (intervals_slot w Hwf) as Hs.
    destruct (_waitP (runner w)) as [p|]; [|done].
    destruct Hs as (h & Hiv & Hup). exists h. split_and!; try done.
    unfold handle_promise. rewrite Hiv. cbn. by rewrite decide_True. }
  split; [|split; [|split; [|split; [|split; [|split]]]]].
  - intros p. by apply outstanding_wait_slot.
  - intros p q Hp Hq.
    apply (outstanding_wait_slot w p Hwf) in Hp.
    apply (outstanding_wait_slot w q Hwf) in Hq. congruence.
  - pose proof (intervals_slot w Hwf) as Hs.
    destruct (_waitP (runner w)); [destruct Hs as (h & -> & _)|rewrite Hs]; simpl; lia.
  - exact Hlive.
  - intros p E. unfold waitToBeUnpaused. by rewrite E.
  - intros p E. rewrite E in Hlive. destruct Hlive as (h & _ & _ & Hh).
    exists h. split; [done|]. intros Hf.
    destruct (tick_unpaused h p w Hwf Hh Hf) as (_ & Hiv & Hp & Hnone).
    done.
  - intros h p E Hf w'. subst w'.
    destruct (tick_unpaused h p w Hwf E Hf) as (Hs & Hiv & Hp & Hnone).
    assert (Hwf' : wf (tick h w)) by (by apply tick_inv).
    split; [done|]. split; [done|]. split; [done|]. split; [done|]. split; [|split].
    + intros q Hq. apply (outstanding_wait_slot _ q Hwf') in Hq. congruence.
    + destruct (waitToBeUnpaused_fresh _ Hwf' Hnone) as (_ & Hfresh & _).
      intros Heq. rewrite Heq in Hfresh. congruence.
    + apply outstanding_wait_slot; [by apply waitToBeUnpaused_inv|].
      apply waitToBeUnpaused_slot.
Qed.

Lemma single_pending_wait_witness :
  let w := run [EPause; EStep; EWaitToBeUnpaused; EStep; EUnpause]
             demo_world in
  _waitP (runner w) = Some 1 ∧
  intervals w = [(1, 1)] ∧
  waitToBeUnpaused w = (1, w) ∧
  truthy (WBBehaviorPaused (window w)) = false ∧
  intervals (tick 1 w) = [] ∧
  promises (tick 1 w) !! 1 = Some (Settled (Fulfilled VUndefined)) ∧
  _waitP (runner (tick 1 w)) = None.
Proof.
  destruct (single_pending_wait plain_policy blank_window 7 SUndefined
              abc_source
              [EPause; EStep; EWaitToBeUnpaused; EStep; EUnpause])
    as (_ & _ & _ & _ & Hsame & _ & Htick).
  destruct (Htick 1 1 eq_refl eq_refl) as (_ & Hiv & Hp & Hnone & _).
  split; [reflexivity|]. split; [reflexivity|].
  split; [exact (Hsame 1 eq_refl)|]. split; [reflexivity|].
  split; [exact Hiv|]. split; [exact Hp|exact Hnone].
Defined.

(** * Nothing advances while the poll sees the flag set *)

Lemma wf_pop j q w :
  wf w → microtasks w = j :: q →
  wf (with_microtasks q w) ∧ settable (with_microtasks q w) (job_target j).
Proof.
  intros Hwf E. pose proof (wf_jobs _ Hwf) as Hj. rewrite E in Hj.
  apply Forall_cons in Hj as [Hj Hq].
  destruct Hwf as [Hp Hw _ Hr Hres Hs Hi]. by split.
Qed.

Lemma settable_not_slot w t :
  wf w → settable w t → _waitP (runner w) ≠ Some t.
Proof.
  intros Hwf [_ Hnw] E. pose proof (wf_slot _ Hwf) as Hs. rewrite E in Hs.
  by destruct Hs as [[Hin _] _].
Qed.

Lemma settle_quiet t s w :
  wf w → settable w t → no_resume (microtasks w) →
  no_resume (microtasks (settle t s w)) ∧
  calls (settle t s w) = calls w.
Proof.
  intros Hwf Hset Hq. unfold settle.
  destruct (promises w !! t) as [[rs|s']|] eqn:E; try done.
  simpl. split; [|done]. apply Forall_app. split; [done|].
  apply Forall_map. apply (wf_resume _ Hwf _ _ E).
  by apply settable_not_slot.
Qed.

Lemma perform_then_quiet p r w :
  is_resume r = false → no_resume (microtasks w) →
  no_resume (microtasks (perform_then p r w)) ∧
  calls (perform_then p r w) = calls w.
Proof.
  intros Hr Hq. unfold perform_then.
  destruct (promises w !! p) as [[rs|s']|]; try done.
  simpl. split; [|done]. apply Forall_app. split; [done|]. by constructor.
Qed.

Lemma run_job_quiet j w :
  wf w → settable w (job_target j) → job_resumes j = false →
  no_resume (microtasks w) →
  no_resume (microtasks (run_job j w)) ∧
  calls (run_job j w) = calls w ∧
  runner (run_job j w) = runner w.
Proof.
  intros Hwf Hset Hj Hq.
  destruct j as [[f d|t|outer] [v|e]|t src]; simpl in *; try done.
  - destruct (f v); (split; [|split]); try apply settle_quiet; try done; apply runner_settle.
  - split; [|split]; try apply settle_quiet; try done; apply runner_settle.
  - split; [|split]; try apply settle_quiet; try done; apply runner_settle.
  - split; [|split]; try apply settle_quiet; try done; apply runner_settle.
  - split; [|split]; try apply perform_then_quiet; try done; apply runner_perform_then.
Qed.

Lemma step_quiet w :
  wf w → no_resume (microtasks w) →
  is_Some (_waitP (runner w)) ∨ truthy (WBBehaviorPaused (window w)) = true →
  is_Some (_waitP (runner (snd (step w)))) ∧
  no_resume (microtasks (snd (step w))) ∧
  calls (snd (step w)) = calls w.
Proof.
  intros Hwf Hq Hp. unfold step. simpl.
  destruct (_waitP (runner w)) as [wp|] eqn:E; simpl.
  - rewrite E. split; [done|]. split; [|done].
    apply Forall_app. split; [done|]. by constructor.
  - destruct Hp as [[? [=]]|Hp]. rewrite Hp. unfold waitToBeUnpaused. simpl.
    rewrite E. simpl. unfold perform_then. simpl.
    rewrite lookup_insert_eq. simpl. done.
Qed.

Lemma exec_quiet ev w :
  wf w → is_Some (_waitP (runner w)) → no_resume (microtasks w) →
  observes_unpaused ev w = false →
  is_Some (_waitP (runner (exec ev w))) ∧
  no_resume (microtasks (exec ev w)) ∧
  calls (exec ev w) = calls w.
Proof.
  intros Hwf Hs Hq Hobs. destruct ev; simpl in *; try done.
  - apply step_quiet; auto.
  - destruct Hs as [p E]. unfold waitToBeUnpaused. by rewrite E.
  - unfold swapBehaviorIterator. by destruct (slot_truthy post).
  - unfold tick. destruct (handle_promise h w) as [p|] eqn:E; [|done].
    unfold interval_callback.
    destruct (truthy _); [done|]. by vm_compute in Hobs.
  - unfold microtask. destruct (microtasks w) as [|j q] eqn:E; [by rewrite E|].
    destruct (wf_pop j q w Hwf E) as [Hwf' Hset].
    apply Forall_cons in Hq as [Hj Hq].
    destruct (run_job_quiet j _ Hwf' Hset Hj Hq) as (? & ? & Hr).
    rewrite Hr. done.
Qed.

Lemma run_quiet evs w :
  wf w → is_Some (_waitP (runner w)) → no_resume (microtasks w) →
  poll_saw_unpaused evs w = false →
  calls (run evs w) = calls w.
Proof.
  revert w. induction evs as [|ev evs IH]; intros w Hwf Hs Hq Hobs; [done|].
  simpl in *. apply orb_false_iff in Hobs as [Hobs Hrest].
  destruct (exec_quiet ev w Hwf Hs Hq Hobs) as (Hs' & Hq' & <-).
  apply IH; auto. by apply exec_inv.
Qed.

Lemma stays_paused_unobserved evs w :
  truthy (WBBehaviorPaused (window w)) = true →
  stays_paused evs w = true → poll_saw_unpaused evs w = false.
Proof.
  revert w. induction evs as [|ev evs IH]; intros w Hp Hst; [done|].
  simpl in *. apply andb_true_iff in Hst as [Hp' Hst].
  rewrite (IH _ Hp' Hst), orb_false_r.
  destruct ev; simpl; try done. by rewrite Hp, andb_false_r.
Qed.

Lemma step_keeps_flag w :
  WBBehaviorPaused (window (snd (step w))) = WBBehaviorPaused (window w).
Proof.
  unfold step, step_return, performStep, iterator_next, async_return,
    waitToBeUnpaused, perform_then, resolve_with_promise, settle.
  simpl. repeat (case_match; simpl in *; simplify_eq; try done).
Qed.

(** C2: [step()] called while the pause flag is truthy, in a state where
    no suspended step is about to resume, does not call [next()], and
    neither does anything that happens afterwards (further calls, flag
    writes, ticks, microtasks) for as long as the flag stays truthy.  More
    precisely the source is not advanced before a tick of the live polling
    interval has found the flag falsy. *)
Theorem step_while_paused_waits (w : World) (evs : list event) :
  wf w →
  Forall (λ j, job_resumes j = false) (microtasks w) →
  truthy (isPaused w) = true →
  (stays_paused evs (snd (step w)) = true →
   calls (run evs (snd (step w))) = calls w) ∧
  (poll_saw_unpaused evs (snd (step w)) = false →
   calls (run evs (snd (step w))) = calls w) ∧
  (calls (run evs (snd (step w))) ≠ calls w →
   poll_saw_unpaused evs (snd (step w)) = true).
Proof.
  intros Hwf Hq Hp.
  destruct (step_quiet w Hwf Hq (or_intror Hp)) as (Hs & Hq' & Hc).
  assert (Hwf' : wf (snd (step w))) by (by apply step_inv).
  assert (Hmain : poll_saw_unpaused evs (snd (step w)) = false →
                  calls (run evs (snd (step w))) = calls w).
  { intros Hobs. rewrite <- Hc. by apply run_quiet. }
  split; [|split; [done|]].
  - intros Hst. apply Hmain, stays_paused_unobserved; [|done].
    by rewrite step_keeps_flag.
  - intros Hne. destruct (poll_saw_unpaused _ _); [done|]. by destruct Hne; apply Hmain.
Qed.

Lemma step_while_paused_waits_witness :
  let w := run [EPause] demo_world in
  truthy (isPaused w) = true ∧
  calls (run [ETick 1; EMicrotask; EStep; EPause; ETick 1; EMicrotask]
           (snd (step w)))
  = calls w.
Proof.
  split; [reflexivity|].
  destruct (step_while_paused_waits (run [EPause] demo_world)
              [ETick 1; EMicrotask; EStep; EPause; ETick 1; EMicrotask]
              (run_inv [EPause] demo_world
                 (wf_fresh_world blank_window
                    (constructor plain_policy 7 SUndefined) abc_source
                    eq_refl))
              (Forall_nil_2 _) eq_refl)
    as (Hpaused & _).
  exact (Hpaused eq_refl).
Defined.

(** * Running the operations on a world given field by field *)

(** The operations unfold once the world they are applied to is known. *)
Arguments with_window x !w /.
Arguments with_runner x !w /.
Arguments with_promises x !w /.
Arguments with_next_promise x !w /.
Arguments with_microtasks x !w /.
Arguments with_intervals x !w /.
Arguments with_next_handle x !w /.
Arguments with_calls x !w /.
Arguments with_waits x !w /.
Arguments set_paused v win /.
Arguments set_stepIterator x r /.
Arguments set_upCheckInterval x r /.
Arguments set_postStepFN x r /.
Arguments set_waitP x r /.
Arguments new_promise st !w /.
Arguments settle p s !w /.
Arguments perform_then p r !w /.
Arguments resolve_with_promise target source !w /.
Arguments setInterval p !w /.
Arguments clearInterval h !w /.
Arguments iterator_next it !w /.
Arguments swapBehaviorIterator newBehaviorIterator newPostStepFN !w /.
Arguments swapPostStepFn newPostStepFN !w /.
Arguments interval_callback p !w /.
Arguments waitToBeUnpaused !w /.
Arguments performStep !w /.
Arguments async_return outer !c !w /.
Arguments step_return outer !w /.
Arguments step !w /.
Arguments pause !w /.
Arguments unpause !w /.
Arguments run_job !j !w /.
Arguments microtask !w /.
Arguments drain !fuel !w /.
Arguments handle_promise h !w /.
Arguments tick h !w /.

Lemma fresh_key w : wf w → promises w !! next_promise w = None.
Proof.
  intros Hwf. destruct (promises w !! next_promise w) eqn:E; [|done].
  apply (wf_promises _ Hwf) in E. lia.
Qed.

(** * step() while a wait is pending *)

Lemma step_while_waiting w wp :
  wf w → _waitP (runner w) = Some wp →
  fst (step w) ≠ wp ∧
  promises w !! fst (step w) = None ∧
  promises (snd (step w)) !! fst (step w) = Some (Pending []) ∧
  microtasks (snd (step w)) = microtasks w ++ [JAdopt (fst (step w)) wp] ∧
  calls (snd (step w)) = calls w ∧
  runner (snd (step w)) = runner w ∧
  window (snd (step w)) = window w ∧
  intervals (snd (step w)) = intervals w.
Proof.
  intros Hwf Hs.
  pose proof (fresh_key w Hwf) as Hfresh.
  pose proof (wf_slot _ Hwf) as Hslot. rewrite Hs in Hslot.
  destruct Hslot as [[_ [rs Hrs]] _].
  apply (wf_promises _ Hwf) in Hrs.
  destruct w as [win rn heap np q ivs nh srcs cs ws].
  cbn in Hs, Hfresh, Hrs. eval_world_with Hs.
  repeat split; [lia|done].
Qed.

Lemma overlap_scenario w :
  wf w → microtasks w = [] → _waitP (runner w) = None →
  truthy (WBBehaviorPaused (window w)) = true →
  let s1 := step w in
  let s2 := step (snd s1) in
  let w3 := drain 1 (snd s2) in
  let w4 := tick (next_handle w) (unpause w3) in
  let w5 := drain 5 w4 in
  fst s2 ≠ fst s1 ∧
  _waitP (runner w3) = Some (S (fst s1)) ∧
  promises w3 !! fst s1 = Some (Pending []) ∧
  promises w3 !! fst s2 = Some (Pending []) ∧
  calls w3 = calls w ∧
  promises w4 !! S (fst s1) = Some (Settled (Fulfilled VUndefined)) ∧
  calls w5 = calls w ++ [stepIterator (runner w)] ∧
  (∃ s, promises w5 !! fst s1 = Some (Settled s)) ∧
  promises w5 !! fst s2 = Some (Settled (Fulfilled VUndefined)) ∧
  microtasks w5 = [].
Proof.
  intros Hwf Hq Hs Hp.
  pose proof (wf_slot _ Hwf) as Hiv. rewrite Hs in Hiv.
  destruct w as [win rn heap np q ivs nh srcs cs ws].
  cbn in Hq, Hs, Hp, Hiv. subst q ivs. cbv zeta.
  repeat first [progress cbn | heap_rw | rewrite Hs | rewrite Hp].
  destruct (srcs _ _) as [d v|e|e]; eval_world.
  - destruct (postStepFN rn) as [| |f]; eval_world.
    + repeat split; first [lia | done | eauto].
    + repeat split; first [lia | done | eauto].
    + destruct (f _); eval_world; repeat split; first [lia | done | eauto].
  - destruct (postStepFN rn) as [| |f]; eval_world; repeat split; first [lia | done | eauto].
  - repeat split; first [lia | done | eauto].
Qed.

Lemma step_while_waiting_adopts w wp :
  wf w → _waitP (runner w) = Some wp → microtasks w = [] →
  ∃ rs, promises w !! wp = Some (Pending rs) ∧
        promises (microtask (snd (step w))) !! wp
        = Some (Pending (rs ++ [RForward (fst (step w))])).
Proof.
  intros Hwf Hs Hq.
  pose proof (wf_slot _ Hwf) as Hslot. rewrite Hs in Hslot.
  destruct Hslot as [[_ [rs Hrs]] _]. exists rs. split; [done|].
  pose proof (wf_promises _ Hwf _ _ Hrs) as Hlt.
  destruct w as [win rn heap np q ivs nh srcs cs ws].
  cbn in Hs, Hq, Hrs, Hlt. subst q.
  repeat first [progress cbn | heap_rw | rewrite Hs | rewrite Hrs].
  done.
Qed.

(** What [step()] does, as written, while a wait [wp] is pending: being an
    async function it makes a promise of its own and resolves it with [wp]
    (the adoption job is queued, and running it attaches the new promise's
    resolving functions to [wp]).  The call does not advance the source and
    leaves the runner, the window and the interval alone.  When two
    [step()] calls overlap while paused, both promises stay pending and
    nothing is consumed until the poll sees the flag cleared; after that
    exactly one source element has been consumed. *)
Theorem step_joins_pending_wait :
  (∀ w wp,
     wf w → _waitP (runner w) = Some wp →
     fst (step w) ≠ wp ∧
     promises w !! fst (step w) = None ∧
     promises (snd (step w)) !! fst (step w) = Some (Pending []) ∧
     microtasks (snd (step w)) = microtasks w ++ [JAdopt (fst (step w)) wp] ∧
     calls (snd (step w)) = calls w ∧
     runner (snd (step w)) = runner w ∧
     window (snd (step w)) = window w ∧
     intervals (snd (step w)) = intervals w ∧
     (microtasks w = [] →
      ∃ rs, promises w !! wp = Some (Pending rs) ∧
            promises (microtask (snd (step w))) !! wp
            = Some (Pending (rs ++ [RForward (fst (step w))])))) ∧
  (∀ w,
     wf w → microtasks w = [] → _waitP (runner w) = None →
     truthy (WBBehaviorPaused (window w)) = true →
     let s1 := step w in
     let s2 := step (snd s1) in
     let w3 := drain 1 (snd s2) in
     let w4 := tick (next_handle w) (unpause w3) in
     let w5 := drain 5 w4 in
     fst s2 ≠ fst s1 ∧
     _waitP (runner w3) = Some (S (fst s1)) ∧
     promises w3 !! fst s1 = Some (Pending []) ∧
     promises w3 !! fst s2 = Some (Pending []) ∧
     calls w3 = calls w ∧
     promises w4 !! S (fst s1) = Some (Settled (Fulfilled VUndefined)) ∧
     calls w5 = calls w ++ [stepIterator (runner w)] ∧
     (∃ s, promises w5 !! fst s1 = Some (Settled s)) ∧
     promises w5 !! fst s2 = Some (Settled (Fulfilled VUndefined)) ∧
     microtasks w5 = []).
Proof.
  split.
  - intros w wp Hwf Hs.
    destruct (step_while_waiting w wp Hwf Hs) as (?&?&?&?&?&?&?&?).
    repeat split; try done. intros Hq. by apply step_while_waiting_adopts.
  - apply overlap_scenario.
Qed.

Lemma wf_waiting_world : wf waiting_world.
Proof. apply run_inv, wf_fresh_world. reflexivity. Qed.

Lemma step_joins_pending_wait_witness :
  _waitP (runner waiting_world) = Some 1 ∧
  calls (snd (step waiting_world)) = calls waiting_world.
Proof.
  split; [reflexivity|].
  destruct (proj1 step_joins_pending_wait waiting_world 1 wf_waiting_world
              eq_refl) as (_ & _ & _ & _ & Hcalls & _).
  exact Hcalls.
Defined.

(** C1: the code at the failing input.  After [pause()] and a first
    [step()], the wait is promise 1 and the first call returned promise 0.
    A second [step()] returns promise 2: neither the wait nor the promise
    of the first call, although the doc comment of [step] promises "the
    same one".  The second call does not advance the source, and once the
    poll has seen the flag cleared exactly one element has been consumed,
    as the claim says; but the first promise ends with the policy's outcome
    for that element and the second with [undefined], not with a
    [{done, wait}] outcome. *)
Theorem overlapping_step_returns_another_promise :
  let w := waiting_world in
  let s2 := step w in
  let w' := drain 5 (tick 1 (unpause (drain 1 (snd s2)))) in
  fst (step (pause demo_world)) = 0 ∧
  _waitP (runner w) = Some 1 ∧
  fst s2 = 2 ∧
  fst s2 ≠ 1 ∧
  fst s2 ≠ 0 ∧
  calls (snd s2) = calls w ∧
  calls w' = [7] ∧
  promises w' !! 0 = Some (Settled (Fulfilled (VOutcome false false))) ∧
  promises w' !! 1 = Some (Settled (Fulfilled VUndefined)) ∧
  promises w' !! fst s2 = Some (Settled (Fulfilled VUndefined)).
Proof.
  vm_compute. split_and!; first [reflexivity | lia].
Qed.

(** * Failures of the source or of the post-step function *)

Lemma step_fails_unpaused w e :
  wf w → microtasks w = [] → _waitP (runner w) = None →
  next_step_fails w e →
  truthy (WBBehaviorPaused (window w)) = false →
  let s := step w in
  let w' := drain 3 (snd s) in
  promises w' !! fst s = Some (Settled (Rejected e)) ∧
  window w' = window w ∧
  runner w' = runner w ∧
  intervals w' = intervals w ∧
  microtasks w' = [] ∧
  calls w' = calls w ++ [stepIterator (runner w)].
Proof.
  intros Hwf Hq Hs Hfail Hp.
  destruct w as [win rn heap np q ivs nh srcs cs ws].
  unfold next_step_fails, next_response in Hfail.
  cbn in Hq, Hs, Hp, Hfail. subst q. cbv zeta.
  repeat first [progress cbn | heap_rw | rewrite Hs | rewrite Hp].
  destruct (srcs _ _) as [d v|e'|e']; eval_world.
  - destruct Hfail as (f & Hf & Hthrow). rewrite Hf. eval_world.
    rewrite Hthrow. eval_world. by destruct rn.
  - subst e'. destruct (postStepFN rn) as [| |f]; eval_world; by destruct rn.
  - subst e'. by destruct rn.
Qed.

Lemma step_fails_after_wait w e :
  wf w → microtasks w = [] → _waitP (runner w) = None →
  next_step_fails w e →
  truthy (WBBehaviorPaused (window w)) = true →
  let s := step w in
  let w' := drain 4 (tick (next_handle w) (unpause (snd s))) in
  promises (snd s) !! fst s = Some (Pending []) ∧
  calls (snd s) = calls w ∧
  promises w' !! fst s = Some (Settled (Rejected e)) ∧
  WBBehaviorPaused (window w') = VBool false ∧
  _waitP (runner w') = None ∧
  intervals w' = [] ∧
  microtasks w' = [] ∧
  calls w' = calls w ++ [stepIterator (runner w)].
Proof.
  intros Hwf Hq Hs Hfail Hp.
  pose proof (wf_slot _ Hwf) as Hiv. rewrite Hs in Hiv.
  destruct w as [win rn heap np q ivs nh srcs cs ws].
  unfold next_step_fails, next_response in Hfail.
  cbn in Hq, Hs, Hp, Hiv, Hfail. subst q ivs. cbv zeta.
  repeat first [progress cbn | heap_rw | rewrite Hs | rewrite Hp].
  destruct (srcs _ _) as [d v|e'|e']; eval_world.
  - destruct Hfail as (f & Hf & Hthrow). rewrite Hf. eval_world.
    rewrite Hthrow. eval_world. done.
  - subst e'. destruct (postStepFN rn) as [| |f]; eval_world; done.
  - subst e'. done.
Qed.

(** C5: when the next advance fails with [e] (the source throws, its
    promise rejects, or the post-step function throws), the promise
    [step()] returned rejects with [e] itself, after a single [next()]
    call.  Called unpaused, the failed
    step leaves the window (hence the pause flag), the runner (hence the
    PendingWait slot) and the interval as they were, and the state is again
    one in which [step()] may be called.  Called paused, the step first
    waits; once the poll has seen the flag cleared it fails in the same
    way, and the slot is empty again as it was before the call. *)
Theorem step_failure_propagates (w : World) (e : value) :
  wf w → microtasks w = [] → _waitP (runner w) = None →
  next_step_fails w e →
  (truthy (WBBehaviorPaused (window w)) = false →
   let s := step w in
   let w' := drain 3 (snd s) in
   promises w' !! fst s = Some (Settled (Rejected e)) ∧
   WBBehaviorPaused (window w') = WBBehaviorPaused (window w) ∧
   _waitP (runner w') = _waitP (runner w) ∧
   window w' = window w ∧
   runner w' = runner w ∧
   intervals w' = intervals w ∧
   microtasks w' = [] ∧
   calls w' = calls w ++ [stepIterator (runner w)] ∧
   wf w') ∧
  (truthy (WBBehaviorPaused (window w)) = true →
   let s := step w in
   let w' := drain 4 (tick (next_handle w) (unpause (snd s))) in
   promises (snd s) !! fst s = Some (Pending []) ∧
   calls (snd s) = calls w ∧
   promises w' !! fst s = Some (Settled (Rejected e)) ∧
   WBBehaviorPaused (window w') = VBool false ∧
   _waitP (runner w') = _waitP (runner w) ∧
   intervals w' = [] ∧
   microtasks w' = [] ∧
   calls w' = calls w ++ [stepIterator (runner w)]).
Proof.
  intros Hwf Hq Hs Hfail. split; intros Hp.
  - destruct (step_fails_unpaused w e Hwf Hq Hs Hfail Hp) as (H1 & H2 & H3 & H4 & H5 & H6).
    cbv zeta. rewrite H2, H3. split_and!; try done.
    apply drain_inv. by apply step_inv.
  - destruct (step_fails_after_wait w e Hwf Hq Hs Hfail Hp) as (?&?&?&?&?&?&?&?).
    cbv zeta. rewrite Hs. by repeat split.
Qed.

Lemma wf_broken_world : wf broken_world.
Proof. apply wf_fresh_world. reflexivity. Qed.

Lemma step_failure_propagates_witness :
  promises (drain 3 (snd (step broken_world))) !! fst (step broken_world)
  = Some (Settled (Rejected (VStr "boom"))).
Proof.
  destruct (step_failure_propagates broken_world (VStr "boom") wf_broken_world
              eq_refl eq_refl eq_refl) as [Hdirect _].
  destruct (Hdirect eq_refl) as [Hrejected _]. exact Hrejected.
Defined.

(** * The post-step function *)

Lemma step_unpaused w d v :
  wf w → microtasks w = [] → _waitP (runner w) = None →
  truthy (WBBehaviorPaused (window w)) = false →
  next_response w = Yields d v →
  let s := step w in
  let w' := drain 3 (snd s) in
  promises w' !! fst s
  = Some (Settled (step_outcome (postStepFN (runner w)) d v)) ∧
  calls w' = calls w ++ [stepIterator (runner w)] ∧
  window w' = window w ∧
  runner w' = runner w ∧
  intervals w' = intervals w ∧
  sources w' = sources w ∧
  microtasks w' = [].
Proof.
  intros Hwf Hq Hs Hp Hnext.
  destruct w as [win rn heap np q ivs nh srcs cs ws].
  unfold next_response in Hnext.
  cbn in Hq, Hs, Hp, Hnext. subst q. cbv zeta.
  repeat first [progress cbn | heap_rw | rewrite Hs | rewrite Hp | rewrite Hnext].
  unfold step_outcome.
  destruct (postStepFN rn) as [| |f]; eval_world; try by destruct rn.
  destruct (f _); eval_world; by destruct rn.
Qed.

Lemma step_unpaused_raw w d v :
  wf w → microtasks w = [] → _waitP (runner w) = None →
  truthy (WBBehaviorPaused (window w)) = false →
  slot_truthy (postStepFN (runner w)) = false →
  next_response w = Yields d v →
  promises (drain 2 (snd (step w))) !! fst (step w)
  = Some (Settled (Fulfilled (VResult d v))) ∧
  microtasks (drain 2 (snd (step w))) = [].
Proof.
  intros Hwf Hq Hs Hp Hfalsy Hnext.
  destruct w as [win rn heap np q ivs nh srcs cs ws].
  unfold next_response in Hnext.
  cbn in Hq, Hs, Hp, Hnext, Hfalsy. subst q.
  repeat first [progress cbn | heap_rw | rewrite Hs | rewrite Hp | rewrite Hnext].
  destruct (postStepFN rn) as [| |f]; [| |done]; eval_world; done.
Qed.

Lemma performStep_without_policy w :
  slot_truthy (postStepFN (runner w)) = false →
  performStep w = iterator_next (stepIterator (runner w)) w.
Proof.
  intros Hfalsy. destruct w as [win rn heap np q ivs nh srcs cs ws].
  cbn in Hfalsy. cbn.
  destruct (srcs _ _); cbn; destruct (postStepFN rn); done.
Qed.

(** C4, as amended: [swapPostStepFn] installs exactly what it is given.
    Called with a function, the very next [step()] applies that function
    to the raw result; called with no argument (or [null]) it removes the
    post-step function, and the very next [step()] resolves with the raw
    [{done, value}] result instead of the previous policy's outcome. *)
Theorem swapPostStepFn_takes_effect (w : World) (post : slot) (d : bool)
    (v : value) :
  wf w → microtasks w = [] → _waitP (runner w) = None →
  truthy (WBBehaviorPaused (window w)) = false →
  next_response w = Yields d v →
  let w1 := swapPostStepFn post w in
  let s := step w1 in
  let w' := drain 3 (snd s) in
  postStepFN (runner w1) = post ∧
  promises w' !! fst s =
    Some (Settled
            match post with
            | SFn f =>
                match f (VResult d v) with
                | Normal v' => Fulfilled v'
                | Throw e => Rejected e
                end
            | SUndefined | SNull => Fulfilled (VResult d v)
            end) ∧
  calls w' = calls w ++ [stepIterator (runner w)].
Proof.
  intros Hwf Hq Hs Hp Hnext w1 s w'. split; [done|].
  destruct (step_unpaused w1 d v) as (Hres & Hcalls & _); try done.
  by apply wf_swapPostStepFn.
Qed.

Lemma wf_demo_world : wf demo_world.
Proof. apply wf_fresh_world. reflexivity. Qed.

Lemma swapPostStepFn_takes_effect_witness :
  let s := step (swapPostStepFn SUndefined demo_world) in
  promises (drain 3 (snd s)) !! fst s
  = Some (Settled (Fulfilled (VResult false (VStr "a")))).
Proof.
  destruct (swapPostStepFn_takes_effect demo_world SUndefined false (VStr "a")
              wf_demo_world eq_refl eq_refl eq_refl eq_refl)
    as (_ & Hres & _).
  exact Hres.
Defined.

(** After [swapPostStepFn()] without an argument the previous policy is
    gone: the slot differs from what was installed, and the next [step()]
    resolves with the raw result, not with the policy's outcome. *)
Lemma swapPostStepFn_no_argument_clears :
  let w := swapPostStepFn SUndefined demo_world in
  let s := step w in
  postStepFN (runner demo_world) = SFn plain_policy ∧
  postStepFN (runner w) ≠ postStepFN (runner demo_world) ∧
  plain_policy (VResult false (VStr "a")) = Normal (VOutcome false false) ∧
  promises (drain 3 (snd s)) !! fst s
  = Some (Settled (Fulfilled (VResult false (VStr "a")))) ∧
  promises (drain 3 (snd s)) !! fst s
  ≠ Some (Settled (Fulfilled (VOutcome false false))).
Proof.
  cbv zeta. split_and!; try reflexivity.
  - cbn. discriminate.
  - vm_compute. discriminate.
Qed.

(** C10: with a falsy [postStepFN] installed (as after [swapPostStepFn]
    without an argument), [performStep] returns the very promise
    [stepIterator.next()] returned, and an unpaused [step()] with no wait
    pending resolves with the raw [{done, value}] result. *)
Theorem falsy_policy_gives_raw_result (w : World) (d : bool) (v : value) :
  wf w → microtasks w = [] → _waitP (runner w) = None →
  truthy (WBBehaviorPaused (window w)) = false →
  slot_truthy (postStepFN (runner w)) = false →
  next_response w = Yields d v →
  performStep w = iterator_next (stepIterator (runner w)) w ∧
  promises (drain 2 (snd (step w))) !! fst (step w)
  = Some (Settled (Fulfilled (VResult d v))) ∧
  microtasks (drain 2 (snd (step w))) = [] ∧
  (∀ w0, slot_truthy (postStepFN (runner (swapPostStepFn SUndefined w0)))
         = false).
Proof.
  intros Hwf Hq Hs Hp Hfalsy Hnext.
  destruct (step_unpaused_raw w d v) as [Hres Hq']; try done.
  split; [by apply performStep_without_policy|]. by repeat split.
Qed.

Lemma falsy_policy_gives_raw_result_witness :
  let w := run [ESwapPostStepFn SUndefined] demo_world in
  promises (drain 2 (snd (step w))) !! fst (step w)
  = Some (Settled (Fulfilled (VResult false (VStr "a")))).
Proof.
  destruct (falsy_policy_gives_raw_result
              (run [ESwapPostStepFn SUndefined] demo_world) false (VStr "a")
              (run_inv _ _ wf_demo_world) eq_refl eq_refl eq_refl eq_refl
              eq_refl)
    as (_ & Hres & _).
  exact Hres.
Defined.

(** * Swapping the source *)

Lemma settle_calls p s w :
  calls (settle p s w) = calls w ∧ runner (settle p s w) = runner w.
Proof. destruct w. cbn. by repeat case_match. Qed.

Lemma perform_then_calls p r w :
  calls (perform_then p r w) = calls w ∧
  runner (perform_then p r w) = runner w.
Proof. destruct w. cbn. by repeat case_match. Qed.

Lemma step_return_calls outer w :
  calls (step_return outer w) = calls w ++ [stepIterator (runner w)] ∧
  runner (step_return outer w) = runner w.
Proof.
  destruct w as [win rn heap np q ivs nh srcs cs ws]. cbn.
  destruct (srcs _ _); cbn.
  - destruct (postStepFN rn); cbn; try done.
    repeat first [heap_rw | progress cbn]. done.
  - destruct (postStepFN rn); cbn; try done.
    repeat first [heap_rw | progress cbn]. done.
  - by repeat case_match.
Qed.

Lemma step_advance w : advance_of w (snd (step w)).
Proof.
  unfold advance_of.
  destruct w as [win rn heap np q ivs nh srcs cs ws]. cbn.
  destruct (_waitP rn); cbn; [auto|].
  destruct (truthy _); cbn.
  - repeat first [heap_rw | progress cbn]. auto.
  - destruct (srcs _ _); cbn.
    + destruct (postStepFN rn); repeat first [heap_rw | progress cbn]; auto.
    + destruct (postStepFN rn); repeat first [heap_rw | progress cbn]; auto.
    + repeat first [heap_rw | progress cbn]; auto.
Qed.

Lemma run_job_advance j w : advance_of w (run_job j w).
Proof.
  unfold advance_of.
  destruct j as [[f d|t|outer] [v|e]|t src].
  - destruct w. cbn. destruct (f v); cbn; repeat case_match; cbn; auto.
  - destruct (settle_calls d (Rejected e) w) as [Hc Hr].
    destruct w; cbn in *. rewrite Hc, Hr. auto.
  - destruct (settle_calls t (Fulfilled v) w) as [Hc Hr].
    destruct w; cbn in *. rewrite Hc, Hr. auto.
  - destruct (settle_calls t (Rejected e) w) as [Hc Hr].
    destruct w; cbn in *. rewrite Hc, Hr. auto.
  - destruct (step_return_calls outer w) as [Hc Hr].
    destruct w; cbn in *. rewrite Hc, Hr. auto.
  - destruct (settle_calls outer (Rejected e) w) as [Hc Hr].
    destruct w; cbn in *. rewrite Hc, Hr. auto.
  - destruct (perform_then_calls src (RForward t) w) as [Hc Hr].
    destruct w; cbn in *. rewrite Hc, Hr. auto.
Qed.

Lemma exec_advance ev w :
  swaps_source ev = false → advance_of w (exec ev w).
Proof.
  intros Hev. destruct ev; try done; cbn [exec].
  - apply step_advance.
  - unfold advance_of. destruct w as [win rn heap np q ivs nh srcs cs ws].
    cbn. destruct (_waitP rn); cbn; auto.
  - unfold advance_of. destruct w. cbn. auto.
  - unfold advance_of. destruct w. cbn. auto.
  - unfold advance_of. destruct w. cbn. auto.
  - unfold advance_of. destruct w. cbn. auto.
  - unfold advance_of, tick, interval_callback, settle, clearInterval.
    destruct w as [win rn heap np q ivs nh srcs cs ws].
    repeat (case_match; cbn); auto.
  - destruct w as [win rn heap np q ivs nh srcs cs ws].
    destruct q as [|j q]; [unfold advance_of; cbn; auto|].
    cbn [microtask microtasks with_microtasks].
    apply (run_job_advance j
             (Build_World win rn heap np q ivs nh srcs cs ws)).
Qed.

Lemma run_advance evs w :
  forallb (λ ev, negb (swaps_source ev)) evs = true →
  stepIterator (runner (run evs w)) = stepIterator (runner w) ∧
  ∃ k, calls (run evs w) = calls w ++ replicate k (stepIterator (runner w)).
Proof.
  revert w. induction evs as [|ev evs IH]; intros w Hevs.
  - split; [done|]. exists 0. cbn. by rewrite app_nil_r.
  - cbn in Hevs. apply andb_true_iff in Hevs as [Hev Hevs].
    apply negb_true_iff in Hev.
    destruct (exec_advance ev w Hev) as [Hit Hcalls].
    destruct (IH (exec ev w) Hevs) as [Hit' [k Hk]].
    cbn [run]. rewrite Hit', Hk, Hit. split; [done|].
    destruct Hcalls as [-> | ->].
    + by exists k.
    + exists (S k). by rewrite <- app_assoc.
Qed.

Lemma count_occ_replicate_other (x y k : nat) :
  x ≠ y → count_occ Nat.eq_dec (replicate k x) y = 0.
Proof.
  intros Hne. induction k as [|k IH]; [done|].
  cbn. destruct (Nat.eq_dec x y); [done|]. exact IH.
Qed.

Lemma step_after_swap w it2 post :
  _waitP (runner w) = None →
  truthy (WBBehaviorPaused (window w)) = false →
  calls (snd (step (swapBehaviorIterator it2 post w))) = calls w ++ [it2].
Proof.
  intros Hs Hp. destruct w as [win rn heap np q ivs nh srcs cs ws].
  cbn in Hs, Hp.
  destruct post as [| |f];
    repeat first [progress cbn | heap_rw | rewrite Hs | rewrite Hp];
    (destruct (srcs _ _); repeat first [heap_rw | progress cbn]; try done;
     destruct (postStepFN rn); repeat first [heap_rw | progress cbn]; done).
Qed.

(** C6: after [swapBehaviorIterator(S2)] the runner's source is [S2], and,
    whatever happens next short of another swap, every [next()] call made
    from then on is on [S2]: no other source, the previous one included, is
    called again.  An unpaused [step()] with no wait pending issued after
    the swap calls [S2.next()] exactly once. *)
Theorem swapped_source_is_advanced (w : World) (it2 : nat) (post : slot)
    (evs : list event) :
  forallb (λ ev, negb (swaps_source ev)) evs = true →
  let w' := swapBehaviorIterator it2 post w in
  stepIterator (runner w') = it2 ∧
  (∃ k, calls (run evs w') = calls w ++ replicate k it2) ∧
  (∀ it1, it1 ≠ it2 →
     count_occ Nat.eq_dec (calls (run evs w')) it1
     = count_occ Nat.eq_dec (calls w) it1) ∧
  (_waitP (runner w) = None →
   truthy (WBBehaviorPaused (window w)) = false →
   calls (snd (step w')) = calls w ++ [it2]).
Proof.
  intros Hevs w'.
  assert (Hit : stepIterator (runner w') = it2).
  { subst w'. destruct w. cbn. by destruct (slot_truthy post). }
  assert (Hc : calls w' = calls w).
  { subst w'. destruct w. cbn. by destruct (slot_truthy post). }
  destruct (run_advance evs w' Hevs) as [_ [k Hk]].
  rewrite Hit, Hc in Hk.
  split_and!; [done|by exists k| |by apply step_after_swap].
  intros it1 Hne. rewrite Hk, count_occ_app, count_occ_replicate_other; [lia|done].
Qed.

Lemma swapped_source_is_advanced_witness :
  count_occ Nat.eq_dec
    (calls (run [EStep; EMicrotask; EMicrotask; EMicrotask; EStep]
              (swapBehaviorIterator 9 SUndefined demo_world))) 7
  = count_occ Nat.eq_dec (calls demo_world) 7.
Proof.
  destruct (swapped_source_is_advanced demo_world 9 SUndefined
              [EStep; EMicrotask; EMicrotask; EMicrotask; EStep] eq_refl)
    as (_ & _ & Hold & _).
  apply Hold. lia.
Defined.

(** * The default policy *)

Lemma count_occ_same (l : list nat) (x : nat) :
  count_occ Nat.eq_dec (l ++ [x]) x = S (count_occ Nat.eq_dec l x).
Proof.
  rewrite count_occ_app. cbn. destruct (Nat.eq_dec x x); [lia|done].
Qed.

Lemma next_response_after_step w d v :
  wf w → microtasks w = [] → _waitP (runner w) = None →
  truthy (WBBehaviorPaused (window w)) = false →
  next_response w = Yields d v →
  let w' := drain 3 (snd (step w)) in
  wf w' ∧ microtasks w' = [] ∧ _waitP (runner w') = None ∧
  truthy (WBBehaviorPaused (window w')) = false ∧
  postStepFN (runner w') = postStepFN (runner w) ∧
  stepIterator (runner w') = stepIterator (runner w) ∧
  sources w' = sources w ∧
  calls w' = calls w ++ [stepIterator (runner w)] ∧
  next_response w'
  = sources w (stepIterator (runner w))
      (S (count_occ Nat.eq_dec (calls w) (stepIterator (runner w)))).
Proof.
  intros Hwf Hq Hs Hp Hnext w'.
  destruct (step_unpaused w d v Hwf Hq Hs Hp Hnext)
    as (_ & Hcalls & Hwin & Hrun & _ & Hsrc & Hq').
  fold w' in Hcalls, Hwin, Hrun, Hsrc, Hq'.
  split_and!; try congruence.
  - apply drain_inv. by apply step_inv.
  - unfold next_response. rewrite Hsrc, Hrun, Hcalls. by rewrite count_occ_same.
Qed.

(** C7: a runner constructed without a [postStepFN] gets the default
    policy.  On the source that yields "a", "b" and is then exhausted, three
    [step()] calls made one after the other while unpaused resolve, in this
    order, with the policy's outcome for "a", its outcome for "b", and
    [{done: true, wait: false}]. *)
Theorem default_policy_scenario (is_sentinel : value → bool) (win : Window)
    (it : nat) :
  truthy (WBBehaviorPaused win) = false →
  let doneOrWait := doneOrWait_spec is_sentinel in
  let w0 := fresh_world win (constructor doneOrWait it SUndefined) abc_source in
  let s1 := step w0 in
  let w1 := drain 3 (snd s1) in
  let s2 := step w1 in
  let w2 := drain 3 (snd s2) in
  let s3 := step w2 in
  let w3 := drain 3 (snd s3) in
  postStepFN (runner w0) = SFn doneOrWait ∧
  ∃ oa ob,
    doneOrWait (VResult false (VStr "a")) = Normal oa ∧
    doneOrWait (VResult false (VStr "b")) = Normal ob ∧
    promises w1 !! fst s1 = Some (Settled (Fulfilled oa)) ∧
    promises w2 !! fst s2 = Some (Settled (Fulfilled ob)) ∧
    promises w3 !! fst s3
    = Some (Settled (Fulfilled (VOutcome true false))) ∧
    calls w3 = [it; it; it].
Proof.
  intros Hp doneOrWait w0 s1 w1 s2 w2 s3 w3.
  split; [done|].
  exists (VOutcome false (is_sentinel (VStr "a"))),
         (VOutcome false (is_sentinel (VStr "b"))).
  split; [done|]. split; [done|].
  assert (Hwf0 : wf w0) by (by apply wf_fresh_world).
  assert (Hn0 : next_response w0 = Yields false (VStr "a")) by done.
  destruct (step_unpaused w0 _ _ Hwf0 eq_refl eq_refl Hp Hn0)
    as (Hr1 & _).
  destruct (next_response_after_step w0 _ _ Hwf0 eq_refl eq_refl Hp Hn0)
    as (Hwf1 & Hq1 & Hs1 & Hp1 & Hpost1 & Hit1 & Hsrc1 & Hc1 & Hn1).
  fold s1 w1 in Hr1, Hwf1, Hq1, Hs1, Hp1, Hpost1, Hit1, Hsrc1, Hc1, Hn1.
  change (next_response w1 = Yields false (VStr "b")) in Hn1.
  destruct (step_unpaused w1 _ _ Hwf1 Hq1 Hs1 Hp1 Hn1) as (Hr2 & _).
  destruct (next_response_after_step w1 _ _ Hwf1 Hq1 Hs1 Hp1 Hn1)
    as (Hwf2 & Hq2 & Hs2 & Hp2 & Hpost2 & Hit2 & Hsrc2 & Hc2 & Hn2).
  fold s2 w2 in Hr2, Hwf2, Hq2, Hs2, Hp2, Hpost2, Hit2, Hsrc2, Hc2, Hn2.
  rewrite Hsrc1, Hc1, Hit1, count_occ_same in Hn2.
  change (next_response w2 = Yields true VUndefined) in Hn2.
  destruct (step_unpaused w2 _ _ Hwf2 Hq2 Hs2 Hp2 Hn2)
    as (Hr3 & Hc3 & _).
  fold s3 w3 in Hr3, Hc3.
  rewrite Hpost1 in Hr2. rewrite Hpost2, Hpost1 in Hr3.
  split; [exact Hr1|]. split; [exact Hr2|]. split; [exact Hr3|].
  rewrite Hc3, Hc2, Hc1, Hit2, Hit1. done.
Qed.

Lemma default_policy_scenario_witness :
  let w0 := fresh_world blank_window (constructor plain_policy 7 SUndefined)
              abc_source in
  let w2 := drain 3 (snd (step (drain 3 (snd (step w0))))) in
  promises (drain 3 (snd (step w2))) !! fst (step w2)
  = Some (Settled (Fulfilled (VOutcome true false))).
Proof.
  destruct (default_policy_scenario (λ _, false) blank_window 7 eq_refl)
    as (_ & oa & ob & _ & _ & _ & _ & Hthird & _).
  exact Hthird.
Defined.

(** * unpause() and the host hook *)

(** C8: [unpause()] in the unpaused state is a no-op.  Whenever the flag
    is falsy it is falsy afterwards (it is [false]), and the call creates,
    resolves and removes nothing: runner (hence the [_waitP] slot and the
    interval handle), promises, intervals, queued jobs and the call log are
    untouched; calling it twice is calling it once; and when the flag is
    already [false] the whole state is unchanged. *)
Theorem unpause_idempotent (w : World) :
  truthy (WBBehaviorPaused (window w)) = false →
  truthy (WBBehaviorPaused (window (unpause w))) = false ∧
  WBBehaviorPaused (window (unpause w)) = VBool false ∧
  runner (unpause w) = runner w ∧
  promises (unpause w) = promises w ∧
  intervals (unpause w) = intervals w ∧
  microtasks (unpause w) = microtasks w ∧
  waits (unpause w) = waits w ∧
  calls (unpause w) = calls w ∧
  unpause (unpause w) = unpause w ∧
  (WBBehaviorPaused (window w) = VBool false → unpause w = w).
Proof.
  intros _. split_and!; try reflexivity.
  destruct w as [[flag si rr ih ds] rn heap np q ivs nh srcs cs ws].
  cbn. intros ->. reflexivity.
Qed.

Lemma unpause_idempotent_witness :
  unpause (run [EPause; EUnpause] demo_world)
  = run [EPause; EUnpause] demo_world.
Proof.
  destruct (unpause_idempotent (run [EPause; EUnpause] demo_world) eq_refl)
    as (_ & _ & _ & _ & _ & _ & _ & _ & _ & Hsame).
  exact (Hsame eq_refl).
Defined.

(** C9: [initRunnableBehavior] stores the iterator it was given as
    [$WBBehaviorStepIter$], the runner it constructs from the iterator and
    the optional post-step function as [$WBBehaviorRunner$] and that
    runner's bound [step] as [$WRIteratorHandler$]; it dispatches exactly
    one mouse event, a [mousemove] at pageX = pageY = 15,
    clientX = clientY = 150, screenX = 500, screenY = 250; it returns the
    runner, and it leaves the pause flag alone. *)
Theorem initRunnableBehavior_registers (doneOrWait : policy) (win : Window)
    (it : nat) (post : slot) :
  let r := fst (initRunnableBehavior doneOrWait win it post) in
  let win' := snd (initRunnableBehavior doneOrWait win it post) in
  r = constructor doneOrWait it post ∧
  stepIterator r = it ∧
  _waitP r = None ∧
  upCheckInterval r = None ∧
  postStepFN r = (if not_nullish post then post else SFn doneOrWait) ∧
  WBBehaviorStepIter win' = Some it ∧
  WBBehaviorRunner win' = Some r ∧
  WRIteratorHandler win' = Some (BoundStep r) ∧
  dispatched win' = dispatched win ++
    [ {| type := "mousemove";
         position := {| pageX := 15; pageY := 15;
                        clientX := 150; clientY := 150;
                        screenX := 500; screenY := 250 |} |} ] ∧
  length (dispatched win') = S (length (dispatched win)) ∧
  WBBehaviorPaused win' = WBBehaviorPaused win.
Proof.
  cbn. split_and!; try reflexivity.
  rewrite length_app. cbn. lia.
Qed.

(** * Further properties of the runner *)

(** ** An unpaused step, whatever the source does *)

Lemma step_unpaused_any w :
  wf w → microtasks w = [] → _waitP (runner w) = None →
  truthy (WBBehaviorPaused (window w)) = false →
  let s := step w in
  let w' := drain 3 (snd s) in
  promises w' !! fst s
  = Some (Settled (response_outcome (postStepFN (runner w))
                                    (next_response w))) ∧
  calls w' = calls w ++ [stepIterator (runner w)] ∧
  window w' = window w ∧
  runner w' = runner w ∧
  intervals w' = intervals w ∧
  sources w' = sources w ∧
  microtasks w' = [].
Proof.
  intros Hwf Hq Hs Hp.
  destruct w as [win rn heap np q ivs nh srcs cs ws].
  unfold next_response, response_outcome, step_outcome.
  cbn in Hq, Hs, Hp. subst q. cbv zeta.
  repeat first [progress cbn | heap_rw | rewrite Hs | rewrite Hp].
  destruct (srcs _ _) as [d v|e|e]; eval_world.
  - destruct (postStepFN rn) as [| |f]; eval_world; try by destruct rn.
    destruct (f _); eval_world; by destruct rn.
  - destruct (postStepFN rn) as [| |f]; eval_world; by destruct rn.
  - by destruct rn.
Qed.

(** ** Steps taken one after the other *)

Lemma await_step_unpaused w :
  wf w → microtasks w = [] → _waitP (runner w) = None →
  truthy (WBBehaviorPaused (window w)) = false →
  fst (await_step w)
  = Some (Settled (response_outcome (postStepFN (runner w))
                                    (next_response w))) ∧
  wf (snd (await_step w)) ∧
  microtasks (snd (await_step w)) = [] ∧
  runner (snd (await_step w)) = runner w ∧
  window (snd (await_step w)) = window w ∧
  sources (snd (await_step w)) = sources w ∧
  calls (snd (await_step w)) = calls w ++ [stepIterator (runner w)].
Proof.
  intros Hwf Hq Hs Hp.
  destruct (step_unpaused_any w Hwf Hq Hs Hp)
    as (Hres & Hcalls & Hwin & Hrun & _ & Hsrc & Hq').
  unfold await_step, asyncIterator_next.
  destruct (step w) as [p w1] eqn:E. cbn in *.
  split_and!; try done.
  apply drain_inv. pose proof (step_inv w Hwf) as Hwf1. by rewrite E in Hwf1.
Qed.

Lemma step_sequence_S k w :
  step_sequence (S k) w
  = (fst (await_step w) :: fst (step_sequence k (snd (await_step w))),
     snd (step_sequence k (snd (await_step w)))).
Proof.
  cbn [step_sequence]. destruct (await_step w) as [r w1]. cbn [fst snd].
  by destruct (step_sequence k w1).
Qed.

(** X1.  [k] results asked of the runner's async iterator, each awaited
    before the next, while unpaused with no wait pending: every demand is
    one [step()], the i-th one ends with the post-step function applied
    to what the i-th following [next()] call of the source does (or with
    that call's error), [next()] is called exactly [k] times, and the
    runner and the window are as before. *)
Theorem sequential_steps_in_order (k : nat) (w : World) :
  wf w → microtasks w = [] → _waitP (runner w) = None →
  truthy (WBBehaviorPaused (window w)) = false →
  fst (step_sequence k w)
  = map (λ i, Some (Settled
                      (response_outcome (postStepFN (runner w))
                         (sources w (stepIterator (runner w))
                            (count_occ Nat.eq_dec (calls w)
                               (stepIterator (runner w)) + i)))))
        (seq 0 k) ∧
  calls (snd (step_sequence k w))
  = calls w ++ replicate k (stepIterator (runner w)) ∧
  runner (snd (step_sequence k w)) = runner w ∧
  window (snd (step_sequence k w)) = window w ∧
  microtasks (snd (step_sequence k w)) = [].
Proof.
  revert w. induction k as [|k IH]; intros w Hwf Hq Hs Hp.
  - cbn. by rewrite app_nil_r.
  - destruct (await_step_unpaused w Hwf Hq Hs Hp)
      as (Hres & Hwf1 & Hq1 & Hrun1 & Hwin1 & Hsrc1 & Hcalls1).
    assert (Hs1 : _waitP (runner (snd (await_step w))) = None)
      by (by rewrite Hrun1).
    assert (Hp1 : truthy (WBBehaviorPaused (window (snd (await_step w))))
                  = false) by (by rewrite Hwin1).
    destruct (IH _ Hwf1 Hq1 Hs1 Hp1) as (IHres & IHcalls & IHrun & IHwin & IHq).
    rewrite step_sequence_S. cbn [fst snd].
    rewrite IHres, IHcalls, IHrun, IHwin, IHq, Hres, Hrun1, Hwin1, Hsrc1,
      Hcalls1.
    split_and!; try done.
    + cbn [seq map]. unfold next_response. rewrite Nat.add_0_r. f_equal.
      rewrite <- seq_shift, map_map. apply map_ext. intros i.
      rewrite count_occ_same. do 4 f_equal. lia.
    + by rewrite <- app_assoc.
Qed.

Lemma sequential_steps_in_order_witness :
  fst (step_sequence 3 demo_world)
  = [ Some (Settled (Fulfilled (VOutcome false false)));
      Some (Settled (Fulfilled (VOutcome false false)));
      Some (Settled (Fulfilled (VOutcome true false))) ].
Proof.
  destruct (sequential_steps_in_order 3 demo_world wf_demo_world eq_refl
              eq_refl eq_refl) as (Hres & _).
  exact Hres.
Defined.

(** ** Steps that overlap while unpaused *)

(** X2.  Nothing stops two [step()] calls made back to back while unpaused:
    with no wait pending the second call does not join the first, it
    advances the source again.  [next()] is called twice, in call order,
    and each call's promise ends with the post-step function applied to the
    element its own [next()] produced. *)
Theorem overlapping_unpaused_steps_both_advance (w : World) (d1 d2 : bool)
    (v1 v2 : value) :
  wf w → microtasks w = [] → _waitP (runner w) = None →
  truthy (WBBehaviorPaused (window w)) = false →
  next_response w = Yields d1 v1 →
  sources w (stepIterator (runner w))
    (S (count_occ Nat.eq_dec (calls w) (stepIterator (runner w))))
  = Yields d2 v2 →
  let s1 := step w in
  let s2 := step (snd s1) in
  let w' := drain 6 (snd s2) in
  fst s1 ≠ fst s2 ∧
  calls (snd s2)
  = calls w ++ [stepIterator (runner w); stepIterator (runner w)] ∧
  calls w' = calls (snd s2) ∧
  promises w' !! fst s1
  = Some (Settled (step_outcome (postStepFN (runner w)) d1 v1)) ∧
  promises w' !! fst s2
  = Some (Settled (step_outcome (postStepFN (runner w)) d2 v2)) ∧
  _waitP (runner w') = None ∧
  microtasks w' = [].
Proof.
  intros Hwf Hq Hs Hp Hn1 Hn2.
  destruct w as [win rn heap np q ivs nh srcs cs ws].
  unfold next_response in Hn1. unfold step_outcome.
  cbn in Hq, Hs, Hp, Hn1, Hn2. subst q. cbv zeta.
  repeat first [progress cbn | heap_rw | rewrite Hs | rewrite Hp
               | rewrite Hn1 | rewrite count_occ_same | rewrite Hn2].
  destruct (postStepFN rn) as [| |f] eqn:Epost;
    repeat first [progress cbn | heap_rw | rewrite Hs | rewrite Hp
                 | rewrite Hn1 | rewrite count_occ_same | rewrite Hn2
                 | rewrite Epost].
  - rewrite <- app_assoc. split_and!; first [lia | done].
  - rewrite <- app_assoc. split_and!; first [lia | done].
  - destruct (f (VResult d1 v1)) eqn:E1, (f (VResult d2 v2)) eqn:E2;
      repeat first [progress cbn | heap_rw | rewrite E1 | rewrite E2];
      rewrite <- app_assoc; split_and!; first [lia | done].
Qed.

Lemma overlapping_unpaused_steps_both_advance_witness :
  calls (snd (step (snd (step demo_world)))) = [7; 7].
Proof.
  destruct (overlapping_unpaused_steps_both_advance demo_world false false
              (VStr "a") (VStr "b") wf_demo_world eq_refl eq_refl eq_refl
              eq_refl eq_refl) as (_ & Hcalls & _).
  exact Hcalls.
Defined.

(** ** The polling tick *)

Lemma tick_paused h w :
  truthy (WBBehaviorPaused (window w)) = true → tick h w = w.
Proof.
  intros Hp. unfold tick. destruct (handle_promise h w); [|done].
  unfold interval_callback. by rewrite Hp.
Qed.

Lemma handle_promise_none h w : intervals w = [] → handle_promise h w = None.
Proof. intros Hiv. unfold handle_promise. by rewrite Hiv. Qed.



(** ** A step taken while paused *)

Lemma paused_step_resumes w :
  wf w → microtasks w = [] → _waitP (runner w) = None →
  let s := step (pause w) in
  let w2 := drain 4 (tick (next_handle w) (unpause (snd s))) in
  promises (snd s) !! fst s = Some (Pending []) ∧
  calls (snd s) = calls w ∧
  promises (unpause (snd s)) !! fst s = Some (Pending []) ∧
  calls (unpause (snd s)) = calls w ∧
  _waitP (runner (unpause (snd s))) = _waitP (runner (snd s)) ∧
  promises w2 !! fst s
  = Some (Settled (response_outcome (postStepFN (runner w))
                                    (next_response w))) ∧
  calls w2 = calls w ++ [stepIterator (runner w)] ∧
  _waitP (runner w2) = None ∧
  intervals w2 = [] ∧
  microtasks w2 = [].
Proof.
  intros Hwf Hq Hs.
  pose proof (wf_slot _ Hwf) as Hiv. rewrite Hs in Hiv.
  destruct w as [win rn heap np q ivs nh srcs cs ws].
  unfold next_response, response_outcome, step_outcome.
  cbn in Hq, Hs, Hiv. subst q ivs. cbv zeta.
  repeat first [progress cbn | heap_rw | rewrite Hs].
  destruct (srcs _ _) as [d v|e|e]; eval_world.
  - destruct (postStepFN rn) as [| |f]; eval_world; try done.
    destruct (f _); eval_world; done.
  - destruct (postStepFN rn) as [| |f]; eval_world; done.
  - done.
Qed.

(** X4.  [pause()] followed by [step()]: pausing creates no wait and no
    interval; the step's promise stays pending and the source untouched,
    through any tick while the flag is set and through [unpause()] itself;
    at the first tick after [unpause()] the step goes on, calls [next()]
    once and ends with the post-step function applied to that element (or
    with the error of the call), and the wait and its interval are gone. *)
Theorem step_after_pause_resolves_on_unpause (w : World) :
  wf w → microtasks w = [] → _waitP (runner w) = None →
  let s := step (pause w) in
  let w2 := drain 4 (tick (next_handle w) (unpause (snd s))) in
  _waitP (runner (pause w)) = None ∧
  intervals (pause w) = [] ∧
  promises (snd s) !! fst s = Some (Pending []) ∧
  calls (snd s) = calls w ∧
  (∀ h, tick h (snd s) = snd s) ∧
  promises (unpause (snd s)) !! fst s = Some (Pending []) ∧
  calls (unpause (snd s)) = calls w ∧
  _waitP (runner (unpause (snd s))) = _waitP (runner (snd s)) ∧
  promises w2 !! fst s
  = Some (Settled (response_outcome (postStepFN (runner w))
                                    (next_response w))) ∧
  calls w2 = calls w ++ [stepIterator (runner w)] ∧
  _waitP (runner w2) = None ∧
  intervals w2 = [] ∧
  microtasks w2 = [].
Proof.
  intros Hwf Hq Hs s w2.
  destruct (paused_step_resumes w Hwf Hq Hs) as (?&?&?&?&?&?&?&?&?&?).
  pose proof (wf_slot _ Hwf) as Hiv. rewrite Hs in Hiv.
  split_and!; try done.
  intros h. apply tick_paused. subst s. rewrite step_keeps_flag.
  by destruct w.
Qed.

Lemma step_after_pause_resolves_on_unpause_witness :
  let s := step (pause demo_world) in
  promises (drain 4 (tick 1 (unpause (snd s)))) !! fst s
  = Some (Settled (Fulfilled (VOutcome false false))).
Proof.
  destruct (step_after_pause_resolves_on_unpause demo_world wf_demo_world
              eq_refl eq_refl) as (_ & _ & _ & _ & _ & _ & _ & _ & Hres & _).
  exact Hres.
Defined.

(** ** Swapping while a step waits *)

(** X5.  The source and the post-step function are read when a waiting
    step goes on, not when [step()] was called.  If the source is swapped
    (with or without a new post-step function) while the step waits, the
    step calls [next()] on the new source, once, and never on the old one;
    if the post-step function is swapped meanwhile, the new one (or none) is
    what is applied. *)
Theorem waiting_step_uses_what_is_installed (w : World) (it2 : nat)
    (post : slot) :
  wf w → microtasks w = [] → _waitP (runner w) = None →
  truthy (WBBehaviorPaused (window w)) = true →
  let s := step w in
  let resume w1 := drain 4 (tick (next_handle w) (unpause w1)) in
  let wa := resume (swapBehaviorIterator it2 post (snd s)) in
  let wb := resume (swapPostStepFn post (snd s)) in
  (calls wa = calls w ++ [it2] ∧
   promises wa !! fst s
   = Some (Settled
             (response_outcome
                (policy_after_swap post (postStepFN (runner w)))
                (sources w it2 (count_occ Nat.eq_dec (calls w) it2)))) ∧
   microtasks wa = []) ∧
  (calls wb = calls w ++ [stepIterator (runner w)] ∧
   promises wb !! fst s
   = Some (Settled (response_outcome post (next_response w))) ∧
   microtasks wb = []).
Proof.
  intros Hwf Hq Hs Hp.
  pose proof (wf_slot _ Hwf) as Hiv. rewrite Hs in Hiv.
  destruct w as [win rn heap np q ivs nh srcs cs ws].
  unfold next_response, response_outcome, step_outcome, policy_after_swap.
  cbn in Hq, Hs, Hp, Hiv. subst q ivs. cbv zeta.
  repeat first [progress cbn | heap_rw | rewrite Hs | rewrite Hp].
  split.
  - destruct post as [| |g]; eval_world.
    + destruct (srcs it2 _) as [d v|e|e]; eval_world; try done.
      * destruct (postStepFN rn) as [| |f]; eval_world; try done.
        destruct (f _); eval_world; done.
      * destruct (postStepFN rn) as [| |f]; eval_world; done.
    + destruct (srcs it2 _) as [d v|e|e]; eval_world; try done.
      * destruct (postStepFN rn) as [| |f]; eval_world; try done.
        destruct (f _); eval_world; done.
      * destruct (postStepFN rn) as [| |f]; eval_world; done.
    + destruct (srcs it2 _) as [d v|e|e]; eval_world; try done.
      destruct (g _); eval_world; done.
  - destruct (srcs _ _) as [d v|e|e]; eval_world.
    + destruct post as [| |g]; eval_world; try done.
      destruct (g _); eval_world; done.
    + destruct post as [| |g]; eval_world; done.
    + done.
Qed.

Lemma waiting_step_uses_what_is_installed_witness :
  let w := run [EPause] demo_world in
  calls (drain 4 (tick 1 (unpause
           (swapBehaviorIterator 9 SUndefined (snd (step w))))))
  = [9].
Proof.
  destruct (waiting_step_uses_what_is_installed (run [EPause] demo_world) 9
              SUndefined (run_inv _ _ wf_demo_world) eq_refl eq_refl eq_refl)
    as ((Hcalls & _) & _).
  exact Hcalls.
Defined.

(** ** What jobs and calls leave alone *)

Lemma step_return_frame outer w :
  runner (step_return outer w) = runner w ∧
  intervals (step_return outer w) = intervals w ∧
  window (step_return outer w) = window w.
Proof.
  destruct w as [win rn heap np q ivs nh srcs cs ws]. cbn.
  destruct (srcs _ _); cbn.
  - destruct (postStepFN rn); repeat first [heap_rw | progress cbn]; done.
  - destruct (postStepFN rn); repeat first [heap_rw | progress cbn]; done.
  - by repeat case_match.
Qed.

Lemma run_job_frame j w :
  runner (run_job j w) = runner w ∧
  intervals (run_job j w) = intervals w ∧
  window (run_job j w) = window w.
Proof.
  destruct j as [[f d|t|outer] [v|e]|t src];
    try (destruct w; cbn; by repeat case_match).
  destruct (step_return_frame outer w) as (Hr & Hi & Hw).
  destruct w; cbn in *. by rewrite Hr, Hi, Hw.
Qed.

Lemma microtask_frame w :
  runner (microtask w) = runner w ∧
  intervals (microtask w) = intervals w ∧
  window (microtask w) = window w.
Proof.
  destruct w as [win rn heap np q ivs nh srcs cs ws].
  destruct q as [|j q]; [done|].
  cbn [microtask microtasks with_microtasks].
  apply (run_job_frame j (Build_World win rn heap np q ivs nh srcs cs ws)).
Qed.

Lemma step_postStepFN w :
  postStepFN (runner (snd (step w))) = postStepFN (runner w).
Proof.
  destruct w as [win rn heap np q ivs nh srcs cs ws]. cbn.
  destruct (_waitP rn); cbn; [done|].
  destruct (truthy _); cbn.
  - repeat first [heap_rw | progress cbn]. done.
  - destruct (srcs _ _); cbn.
    + destruct (postStepFN rn) eqn:E;
        repeat first [heap_rw | progress cbn | rewrite E]; done.
    + destruct (postStepFN rn) eqn:E;
        repeat first [heap_rw | progress cbn | rewrite E]; done.
    + repeat first [heap_rw | progress cbn]; done.
Qed.

Lemma exec_postStepFN ev w :
  postStepFN (runner (exec ev w))
  = match ev with
    | ESwapBehaviorIterator _ post =>
        policy_after_swap post (postStepFN (runner w))
    | ESwapPostStepFn post => post
    | _ => postStepFN (runner w)
    end.
Proof.
  destruct ev; cbn [exec].
  - apply step_postStepFN.
  - destruct w as [win rn heap np q ivs nh srcs cs ws]. cbn.
    by destruct (_waitP rn).
  - by destruct w.
  - by destruct w.
  - by destruct w.
  - destruct w. cbn. unfold policy_after_swap. by destruct (slot_truthy post).
  - by destruct w.
  - unfold tick, interval_callback, settle, clearInterval.
    destruct w as [win rn heap np q ivs nh srcs cs ws].
    repeat (case_match; cbn); done.
  - destruct (microtask_frame w) as (-> & _). done.
Qed.

(** X6.  Whatever is installed as [postStepFN] stays installed: [step],
    [waitToBeUnpaused], [pause], [unpause], writes of the flag, interval
    ticks, microtasks and [swapBehaviorIterator] called without a truthy
    second argument leave it as it is, through any run.  It changes only
    by [swapPostStepFn] and by [swapBehaviorIterator] with a truthy second
    argument. *)
Theorem policy_changes_only_by_swaps (w : World) (evs : list event) :
  forallb (λ ev, negb (replaces_policy ev)) evs = true →
  postStepFN (runner (run evs w)) = postStepFN (runner w).
Proof.
  revert w. induction evs as [|ev evs IH]; intros w Hevs; [done|].
  cbn in Hevs. apply andb_true_iff in Hevs as [Hev Hevs].
  apply negb_true_iff in Hev. cbn [run].
  rewrite (IH _ Hevs), exec_postStepFN.
  destruct ev; try done. cbn in Hev. unfold policy_after_swap.
  by rewrite Hev.
Qed.

Lemma policy_changes_only_by_swaps_witness :
  postStepFN
    (runner (run [EStep; ESwapBehaviorIterator 9 SNull; EPause; EStep;
                  EMicrotask; EUnpause; ETick 1; EMicrotask; EMicrotask]
               demo_world))
  = SFn plain_policy.
Proof.
  exact (policy_changes_only_by_swaps demo_world
           [EStep; ESwapBehaviorIterator 9 SNull; EPause; EStep;
            EMicrotask; EUnpause; ETick 1; EMicrotask; EMicrotask] eq_refl).
Defined.

(** ** The wait and its interval *)

Lemma step_joining_frame w p :
  _waitP (runner w) = Some p →
  runner (snd (step w)) = runner w ∧ intervals (snd (step w)) = intervals w.
Proof.
  intros Hs. destruct w as [win rn heap np q ivs nh srcs cs ws].
  cbn in Hs. cbn. by rewrite Hs.
Qed.

Lemma exec_keeps_wait ev w p :
  _waitP (runner w) = Some p → observes_unpaused ev w = false →
  _waitP (runner (exec ev w)) = Some p ∧
  intervals (exec ev w) = intervals w.
Proof.
  intros Hs Hobs. destruct ev; cbn [exec].
  - destruct (step_joining_frame w p Hs) as [-> ->]. done.
  - unfold waitToBeUnpaused. by rewrite Hs.
  - by destruct w.
  - by destruct w.
  - by destruct w.
  - destruct w. cbn in *. by destruct (slot_truthy post).
  - by destruct w.
  - unfold tick. destruct (handle_promise h w) as [p'|] eqn:E; [|done].
    unfold interval_callback.
    destruct (truthy _) eqn:Hp; [done|].
    cbn in Hobs. rewrite E, Hp in Hobs. by vm_compute in Hobs.
  - destruct (microtask_frame w) as (-> & -> & _). done.
Qed.

(** X7.  A pending wait is resolved by the poll and by nothing else: as
    long as no tick of the live interval has found the flag falsy, the
    [_waitP] slot holds the same promise, the promise is unresolved and the
    same interval is live, whatever else is called or run.  [unpause()] in
    particular resolves nothing by itself. *)
Theorem wait_is_resolved_only_by_the_poll (w : World) (p : nat)
    (evs : list event) :
  wf w → _waitP (runner w) = Some p →
  poll_saw_unpaused evs w = false →
  _waitP (runner (run evs w)) = Some p ∧
  outstanding_wait (run evs w) p ∧
  intervals (run evs w) = intervals w.
Proof.
  intros Hwf Hs Hobs.
  assert (Hkeep : _waitP (runner (run evs w)) = Some p ∧
                  intervals (run evs w) = intervals w).
  { clear Hwf. revert w Hs Hobs.
    induction evs as [|ev evs IH]; intros w Hs Hobs; [done|].
    cbn in Hobs. apply orb_false_iff in Hobs as [Hobs Hrest].
    destruct (exec_keeps_wait ev w p Hs Hobs) as [Hs' Hiv'].
    destruct (IH _ Hs' Hrest) as [Hs'' Hiv'']. cbn [run].
    split; [done|]. by rewrite Hiv'', Hiv'. }
  destruct Hkeep as [Hs' Hiv']. split; [done|]. split; [|done].
  apply outstanding_wait_slot; [by apply run_inv|done].
Qed.

Lemma wait_is_resolved_only_by_the_poll_witness :
  outstanding_wait
    (run [EUnpause; EStep; EMicrotask; EPause; ETick 1; EMicrotask]
       waiting_world) 1.
Proof.
  destruct (wait_is_resolved_only_by_the_poll waiting_world 1
              [EUnpause; EStep; EMicrotask; EPause; ETick 1; EMicrotask]
              wf_waiting_world eq_refl eq_refl) as (_ & Hout & _).
  exact Hout.
Defined.

(** X8.  The polling interval exists exactly while a wait is pending: in
    every world reachable from a new runner, with no wait in the slot no
    interval is live and every tick is a no-op; with a wait in the slot
    exactly one interval is live, its callback resolves that wait, and its
    handle is the one kept in [upCheckInterval], which is what the callback
    clears. *)
Theorem polling_interval_follows_the_wait (doneOrWait : policy)
    (win : Window) (it : nat) (post : slot) (srcs : nat → nat → response)
    (evs : list event) :
  let w := run evs (fresh_world win (constructor doneOrWait it post) srcs) in
  match _waitP (runner w) with
  | Some p => ∃ h, intervals w = [(h, p)] ∧
                   upCheckInterval (runner w) = Some h ∧
                   handle_promise h w = Some p
  | None => intervals w = [] ∧ ∀ h, tick h w = w
  end.
Proof.
  intros w.
  assert (Hwf : wf w) by (by apply run_inv, wf_fresh_world).
  clearbody w. pose proof (intervals_slot w Hwf) as Hslot.
  destruct (_waitP (runner w)) as [p|].
  - destruct Hslot as (h & Hiv & Hup). exists h. split_and!; try done.
    unfold handle_promise. rewrite Hiv. cbn. by rewrite decide_True.
  - split; [done|]. intros h. unfold tick.
    by rewrite (handle_promise_none h w Hslot).
Qed.

(** ** Swapping the source, then stepping *)

(** X9.  [swapBehaviorIterator] installs the new source and keeps the
    post-step function in use unless it is given a function; it touches
    neither the wait nor the interval handle.  The next unpaused [step()]
    calls [next()] on the new source once and ends with the post-step
    function now in force (the old one when none was supplied) applied to
    that element. *)
Theorem swapBehaviorIterator_keeps_policy (w : World) (it2 : nat)
    (post : slot) :
  wf w → microtasks w = [] → _waitP (runner w) = None →
  truthy (WBBehaviorPaused (window w)) = false →
  let w1 := swapBehaviorIterator it2 post w in
  let s := step w1 in
  let w' := drain 3 (snd s) in
  stepIterator (runner w1) = it2 ∧
  postStepFN (runner w1) = policy_after_swap post (postStepFN (runner w)) ∧
  _waitP (runner w1) = _waitP (runner w) ∧
  upCheckInterval (runner w1) = upCheckInterval (runner w) ∧
  promises w' !! fst s
  = Some (Settled
            (response_outcome
               (policy_after_swap post (postStepFN (runner w)))
               (sources w it2 (count_occ Nat.eq_dec (calls w) it2)))) ∧
  calls w' = calls w ++ [it2] ∧
  microtasks w' = [].
Proof.
  intros Hwf Hq Hs Hp w1 s w'.
  assert (Hit : stepIterator (runner w1) = it2).
  { subst w1. destruct w. cbn. by destruct (slot_truthy post). }
  assert (Hpost : postStepFN (runner w1)
                  = policy_after_swap post (postStepFN (runner w))).
  { subst w1. destruct w. cbn. unfold policy_after_swap.
    by destruct (slot_truthy post). }
  assert (Hrest : _waitP (runner w1) = _waitP (runner w) ∧
                  upCheckInterval (runner w1) = upCheckInterval (runner w) ∧
                  microtasks w1 = microtasks w ∧ window w1 = window w ∧
                  calls w1 = calls w ∧ sources w1 = sources w).
  { subst w1. destruct w. cbn. by destruct (slot_truthy post). }
  destruct Hrest as (Hs1 & Hup1 & Hq1 & Hwin1 & Hc1 & Hsrc1).
  destruct (step_unpaused_any w1) as (Hres & Hcalls & _ & _ & _ & _ & Hq');
    [by apply wf_swapBehaviorIterator|congruence|congruence|congruence|].
  fold s w' in Hres, Hcalls, Hq'.
  unfold next_response in Hres.
  rewrite Hpost, Hit, Hsrc1, Hc1 in Hres. rewrite Hit, Hc1 in Hcalls.
  by split_and!.
Qed.

Lemma swapBehaviorIterator_keeps_policy_witness :
  let s := step (swapBehaviorIterator 9 SUndefined demo_world) in
  promises (drain 3 (snd s)) !! fst s
  = Some (Settled (Fulfilled (VOutcome false false))).
Proof.
  destruct (swapBehaviorIterator_keeps_policy demo_world 9 SUndefined
              wf_demo_world eq_refl eq_refl eq_refl)
    as (_ & _ & _ & _ & Hres & _).
  exact Hres.
Defined.

(** ** waitToBeUnpaused() called directly *)

(** X10.  [waitToBeUnpaused()] does not look at the flag.  Called with no
    wait pending while nothing is paused it still makes a new pending
    promise and starts the interval; the promise is fulfilled (with
    [undefined]) by the first tick, not by the call.  A [step()] made in
    between joins that wait, although nothing is paused: it does not call
    [next()] and its promise ends with [undefined]. *)
Theorem waitToBeUnpaused_ignores_the_flag (w : World) :
  wf w → microtasks w = [] → _waitP (runner w) = None →
  truthy (WBBehaviorPaused (window w)) = false →
  let p := fst (waitToBeUnpaused w) in
  let w1 := snd (waitToBeUnpaused w) in
  let s := step w1 in
  let w2 := drain 3 (tick (next_handle w) (drain 1 (snd s))) in
  promises w !! p = None ∧
  promises w1 !! p = Some (Pending []) ∧
  _waitP (runner w1) = Some p ∧
  intervals w1 = [(next_handle w, p)] ∧
  calls (snd s) = calls w ∧
  promises (drain 1 (snd s)) !! fst s = Some (Pending []) ∧
  promises w2 !! p = Some (Settled (Fulfilled VUndefined)) ∧
  promises w2 !! fst s = Some (Settled (Fulfilled VUndefined)) ∧
  calls w2 = calls w ∧
  _waitP (runner w2) = None ∧
  intervals w2 = [] ∧
  microtasks w2 = [].
Proof.
  intros Hwf Hq Hs Hp.
  pose proof (wf_slot _ Hwf) as Hiv. rewrite Hs in Hiv.
  pose proof (fresh_key w Hwf) as Hfresh.
  destruct w as [win rn heap np q ivs nh srcs cs ws].
  cbn in Hq, Hs, Hp, Hiv, Hfresh. subst q ivs. cbv zeta.
  repeat first [progress cbn | heap_rw | rewrite Hs | rewrite Hp].
  by split_and!.
Qed.

Lemma waitToBeUnpaused_ignores_the_flag_witness :
  let w1 := snd (waitToBeUnpaused demo_world) in
  calls (drain 3 (tick 1 (drain 1 (snd (step w1))))) = calls demo_world.
Proof.
  destruct (waitToBeUnpaused_ignores_the_flag demo_world wf_demo_world
              eq_refl eq_refl eq_refl)
    as (_ & _ & _ & _ & _ & _ & _ & _ & Hcalls & _).
  exact Hcalls.
Defined.

(** ** Who writes the window *)

Lemma step_window w : window (snd (step w)) = window w.
Proof.
  destruct w as [win rn heap np q ivs nh srcs cs ws]. cbn.
  destruct (_waitP rn); cbn; [done|].
  destruct (truthy _); cbn.
  - repeat first [heap_rw | progress cbn]. done.
  - destruct (srcs _ _); cbn.
    + destruct (postStepFN rn); repeat first [heap_rw | progress cbn]; done.
    + destruct (postStepFN rn); repeat first [heap_rw | progress cbn]; done.
    + repeat first [heap_rw | progress cbn]; done.
Qed.

Lemma exec_window ev w :
  writes_flag ev = false → window (exec ev w) = window w.
Proof.
  intros Hev. destruct ev; try done; cbn [exec].
  - apply step_window.
  - destruct w as [win rn heap np q ivs nh srcs cs ws]. cbn.
    by destruct (_waitP rn).
  - destruct w. cbn. by destruct (slot_truthy post).
  - unfold tick, interval_callback, settle, clearInterval.
    destruct w as [win rn heap np q ivs nh srcs cs ws].
    repeat (case_match; cbn); done.
  - by destruct (microtask_frame w) as (_ & _ & ->).
Qed.

(** X11.  The runner only reads the window: apart from [pause()],
    [unpause()] and writes by the environment, nothing that is called or
    run ([step], [waitToBeUnpaused], the swaps, interval ticks, microtasks)
    changes the pause flag or any other property of the window. *)
Theorem only_pause_and_unpause_write_the_flag (w : World)
    (evs : list event) :
  forallb (λ ev, negb (writes_flag ev)) evs = true →
  window (run evs w) = window w ∧ isPaused (run evs w) = isPaused w.
Proof.
  intros Hevs.
  assert (Hwin : window (run evs w) = window w).
  { revert w. induction evs as [|ev evs IH]; intros w; [done|].
    cbn in Hevs. apply andb_true_iff in Hevs as [Hev Hevs].
    apply negb_true_iff in Hev. cbn [run].
    by rewrite (IH Hevs), exec_window. }
  split; [done|]. unfold isPaused. by rewrite Hwin.
Qed.

Lemma only_pause_and_unpause_write_the_flag_witness :
  isPaused (run [EStep; EMicrotask; ETick 1; EStep; EWaitToBeUnpaused;
                 ESwapPostStepFn SNull; EMicrotask; ETick 1]
              (pause demo_world))
  = VBool true.
Proof.
  exact (proj2 (only_pause_and_unpause_write_the_flag (pause demo_world)
                  [EStep; EMicrotask; ETick 1; EStep; EWaitToBeUnpaused;
                   ESwapPostStepFn SNull; EMicrotask; ETick 1] eq_refl)).
Defined.
